(** * Backup utility (backup_az_final.py): model and verified properties

    The development follows the Python script function by function:
    [unique_name], [copy_file], [backup_recursive] and [main].  The
    library calls the script makes ([os.path.*], [os.walk], [os.makedirs],
    [shutil.copy2], [datetime.utcnow]) are modelled in front of it: the
    pure path-string functions after CPython's [posixpath] and
    [genericpath], the calls that touch the machine through an interface
    [OS] over an abstract world, with a small tree file system as one
    executable instance. *)

From Stdlib Require Import List Ascii String ZArith Lia Bool Arith.
Import ListNotations.
Open Scope Z_scope.

(** ** Python strings

    A [str] is the list of its characters; [lit] turns a literal into one. *)

Definition str := list ascii.

Definition lit (s : string) : str := list_ascii_of_string s.

Definition str_eqb (a b : str) : bool :=
  if list_eq_dec ascii_dec a b then true else false.

Definition null (p : str) : bool :=
  match p with [] => true | _ => false end.

(** [p.rfind(c)]: the index of the last [c] in [p], or -1. *)
Fixpoint rfind (c : ascii) (p : str) : Z :=
  match p with
  | [] => -1
  | x :: q =>
      let r := rfind c q in
      if 0 <=? r then r + 1 else if Ascii.eqb x c then 0 else -1
  end.

(** [p[:i]] and [p[i:]] for a non-negative [i]. *)
Definition slice_to (p : str) (i : Z) : str := firstn (Z.to_nat i) p.
Definition slice_from (p : str) (i : Z) : str := skipn (Z.to_nat i) p.

(** [p.rstrip(c)]. *)
Fixpoint rstrip (c : ascii) (p : str) : str :=
  match p with
  | [] => []
  | x :: q =>
      match rstrip c q with
      | [] => if Ascii.eqb x c then [] else [x]
      | r => x :: r
      end
  end.

(** [p.split(c)]. *)
Fixpoint split (c : ascii) (p : str) : list str :=
  match p with
  | [] => [[]]
  | x :: q =>
      if Ascii.eqb x c then [] :: split c q
      else match split c q with
           | h :: t => (x :: h) :: t
           | [] => [[x]]
           end
  end.

(** [c.join(l)]. *)
Fixpoint join_with (c : ascii) (l : list str) : str :=
  match l with
  | [] => []
  | [x] => x
  | x :: rest => x ++ c :: join_with c rest
  end.

Definition startswith (pre p : str) : bool :=
  str_eqb (firstn (List.length pre) p) pre.

Definition endswith_char (c : ascii) (p : str) : bool :=
  match rev p with
  | x :: _ => Ascii.eqb x c
  | [] => false
  end.

(** ** posixpath *)

Module posixpath.

Definition sep : ascii := "/"%char.
Definition extsep : ascii := "."%char.
Definition curdir : str := lit ".".
Definition pardir : str := lit "..".

Definition isabs (p : str) : bool := startswith [sep] p.

(** [head != sep*len(head)] is [negb (all_sep head)]. *)
Definition all_sep (p : str) : bool := forallb (fun x => Ascii.eqb x sep) p.

(** One round of the loop of [join(a, *p)]. *)
Definition join1 (path b : str) : str :=
  if startswith [sep] b then b
  else if null path || endswith_char sep path then path ++ b
  else path ++ sep :: b.

Definition join (a : str) (p : list str) : str := fold_left join1 p a.

(** [split(p)]: [i = p.rfind(sep) + 1; head, tail = p[:i], p[i:]], and the
    head loses its trailing slashes unless it is made of slashes only. *)
Definition basename (p : str) : str :=
  let i := rfind sep p + 1 in
  slice_from p i.

Definition dirname (p : str) : str :=
  let i := rfind sep p + 1 in
  let head := slice_to p i in
  if negb (null head) && negb (all_sep head) then rstrip sep head else head.

(** The loop of [genericpath._splitext] that skips the leading dots of the
    file name: [true] when a character other than a dot stands between
    [filenameIndex] and [dotIndex]; [n] is the number of rounds left,
    [dotIndex - filenameIndex]. *)
Fixpoint splitext_scan (p : str) (filenameIndex : Z) (n : nat) : bool :=
  match n with
  | O => false
  | S n' =>
      if negb (str_eqb (firstn 1 (slice_from p filenameIndex)) [extsep])
      then true
      else splitext_scan p (filenameIndex + 1) n'
  end.

Definition splitext (p : str) : str * str :=
  let sepIndex := rfind sep p in
  let dotIndex := rfind extsep p in
  if (sepIndex <? dotIndex)
     && splitext_scan p (sepIndex + 1) (Z.to_nat (dotIndex - (sepIndex + 1)))
  then (slice_to p dotIndex, slice_from p dotIndex)
  else (p, []).

Definition last_is (x : str) (l : list str) : bool :=
  match rev l with y :: _ => str_eqb y x | [] => false end.

Definition is_nil {A} (l : list A) : bool :=
  match l with [] => true | _ => false end.

(** The loop of [normpath] over the components. *)
Fixpoint normpath_comps (initial_slashes : Z) (comps new_comps : list str)
  : list str :=
  match comps with
  | [] => new_comps
  | comp :: rest =>
      if null comp || str_eqb comp curdir
      then normpath_comps initial_slashes rest new_comps
      else if negb (str_eqb comp pardir)
              || ((initial_slashes =? 0) && is_nil new_comps)
              || last_is pardir new_comps
      then normpath_comps initial_slashes rest (new_comps ++ [comp])
      else normpath_comps initial_slashes rest (removelast new_comps)
  end.

(** POSIX allows one or two initial slashes, and treats three or more as
    a single one. *)
Definition initial_slashes (path : str) : Z :=
  if startswith [sep] path then
    if startswith [sep; sep] path && negb (startswith [sep; sep; sep] path)
    then 2 else 1
  else 0.

Definition normpath (path : str) : str :=
  if null path then curdir
  else
    let comps := normpath_comps (initial_slashes path) (split sep path) [] in
    let path' :=
      repeat sep (Z.to_nat (initial_slashes path)) ++ join_with sep comps in
    if null path' then curdir else path'.

(** [abspath], with the working directory [cwd] that [os.getcwd()] gives. *)
Definition abspath (cwd path : str) : str :=
  normpath (if isabs path then path else join cwd [path]).

(** [genericpath.commonprefix] of two lists: the longest common prefix
    (of the smaller and the larger one, which is that of the two). *)
Fixpoint commonprefix (a b : list str) : list str :=
  match a, b with
  | x :: a', y :: b' => if str_eqb x y then x :: commonprefix a' b' else []
  | _, _ => []
  end.

Definition nonempty_comps (p : str) : list str :=
  filter (fun x => negb (null x)) (split sep p).

(** [relpath(path, start)]; [None] is the ValueError of an empty [path]. *)
Definition relpath (cwd path start : str) : option str :=
  if null path then None
  else
    let start_list := nonempty_comps (abspath cwd start) in
    let path_list := nonempty_comps (abspath cwd path) in
    let i := List.length (commonprefix start_list path_list) in
    let rel_list :=
      repeat pardir (List.length start_list - i) ++ skipn i path_list in
    match rel_list with
    | [] => Some curdir
    | a :: p => Some (join a p)
    end.

End posixpath.

(** A name as a listing of a directory gives it: not empty, without a
    slash, and neither [.] nor [..]. *)
Definition entry_name (d : str) : Prop :=
  d <> [] /\ ~ In posixpath.sep d
  /\ d <> posixpath.curdir /\ d <> posixpath.pardir.

(** A component of a normalized path: not empty and without a slash. *)
Definition plain (x : str) : Prop := x <> [] /\ ~ In posixpath.sep x.

(** What [abspath] normalizes. *)
Definition anchored (cwd p : str) : str :=
  if posixpath.isabs p then p else posixpath.join cwd [p].

(** ** datetime

    What [datetime.utcnow()] returns, and [strftime('%Y%m%d-%H%M%S')] on
    it.  [%Y] is written with four digits, which is what every platform
    prints for the years 1000 to 9999. *)

Record datetime := {
  year : Z; month : Z; day : Z; hour : Z; minute : Z; second : Z
}.

Definition digit (d : Z) : ascii := ascii_of_nat (48 + Z.to_nat d).

Definition pad2 (n : Z) : str := [digit (n / 10 mod 10); digit (n mod 10)].

Definition pad4 (n : Z) : str :=
  [digit (n / 1000 mod 10); digit (n / 100 mod 10);
   digit (n / 10 mod 10); digit (n mod 10)].

Definition strftime (dt : datetime) : str :=
  pad4 (year dt) ++ pad2 (month dt) ++ pad2 (day dt) ++ lit "-"
  ++ pad2 (hour dt) ++ pad2 (minute dt) ++ pad2 (second dt).

(** The datetimes whose year has four digits. *)
Definition valid_datetime (dt : datetime) : Prop :=
  1000 <= year dt <= 9999 /\ 1 <= month dt <= 12 /\ 1 <= day dt <= 31
  /\ 0 <= hour dt <= 23 /\ 0 <= minute dt <= 59 /\ 0 <= second dt <= 59.

(** The order of datetimes, field after field. *)
Definition lex (c : comparison) (rest : comparison) : comparison :=
  match c with Eq => rest | _ => c end.

Definition datetime_compare (a b : datetime) : comparison :=
  lex (year a ?= year b)
    (lex (month a ?= month b)
       (lex (day a ?= day b)
          (lex (hour a ?= hour b)
             (lex (minute a ?= minute b) (second a ?= second b))))).

(** The order of Python strings: character after character, by code. *)
Fixpoint str_compare (a b : str) : comparison :=
  match a, b with
  | [], [] => Eq
  | [], _ :: _ => Lt
  | _ :: _, [] => Gt
  | x :: a', y :: b' =>
      lex (Nat.compare (nat_of_ascii x) (nat_of_ascii y)) (str_compare a' b')
  end.

(** [int(s)] for a string of decimal digits. *)
Definition int_of_digits (s : str) : Z :=
  fold_left (fun acc c => 10 * acc + (Z.of_nat (nat_of_ascii c) - 48)) s 0.

Definition is_dot (c : ascii) : bool := Ascii.eqb c posixpath.extsep.

Definition is_digit (c : ascii) : bool :=
  (48 <=? nat_of_ascii c)%nat && (nat_of_ascii c <=? 57)%nat.

(** The timestamp format in words: [s] is [n] written with [width]
    decimal digits, and [ts] is the date, one separator, the time. *)
Definition prints (width : nat) (n : Z) (s : str) : Prop :=
  List.length s = width /\ forallb is_digit s = true /\ int_of_digits s = n.

Definition timestamp_of (dt : datetime) (ts : str) : Prop :=
  exists Y m d H M S,
    ts = Y ++ m ++ d ++ lit "-" ++ H ++ M ++ S
    /\ prints 4 (year dt) Y /\ prints 2 (month dt) m /\ prints 2 (day dt) d
    /\ prints 2 (hour dt) H /\ prints 2 (minute dt) M
    /\ prints 2 (second dt) S.

(** ** Exceptions, the machine and the process

    [OSError] stands for its subclasses too (PermissionError,
    FileNotFoundError, shutil.Error ...); the string is [str(e)].
    [KeyboardInterrupt] is not an instance of [Exception]. *)

Inductive exn :=
| OSError (msg : str)
| ValueError (msg : str)
| KeyboardInterrupt.

Definition is_Exception (e : exn) : bool :=
  match e with
  | OSError _ | ValueError _ => true
  | KeyboardInterrupt => false
  end.

Definition str_of_exn (e : exn) : str :=
  match e with
  | OSError msg | ValueError msg => msg
  | KeyboardInterrupt => []
  end.

(** The calls that reach the machine, over a world [W].  The calls that
    change it return the world they leave behind, also when they raise. *)
Record OS (W : Type) := {
  path_exists : W -> str -> bool;
  path_isdir : W -> str -> bool;
  path_islink : W -> str -> bool;
  getcwd : W -> str;
  utcnow : W -> datetime;
  (** the names in a directory, those of directories apart from the rest *)
  scandir : W -> str -> (list str * list str) + exn;
  (** [os.makedirs(p, exist_ok=True)] *)
  makedirs : W -> str -> W * option exn;
  (** [shutil.copy2(src, dst)] *)
  copy2 : W -> str -> str -> W * option exn
}.

Arguments path_exists {W}.
Arguments path_isdir {W}.
Arguments path_islink {W}.
Arguments getcwd {W}.
Arguments utcnow {W}.
Arguments scandir {W}.
Arguments makedirs {W}.
Arguments copy2 {W}.

(** What a run leaves to be observed, in order: the lines printed and the
    calls that ask the machine for a change. *)
Inductive stream := Stdout | Stderr.

Inductive event :=
| Print (f : stream) (line : str)
| Makedirs (p : str)
| Copy2 (src dst : str).

Record state (W : Type) := { world : W; log : list event }.
Arguments world {W}.
Arguments log {W}.

(** What came of a computation: a value, an exception on its way up,
    [sys.exit(code)] on its way out (the SystemExit that no handler of the
    script catches), or the end of the fuel. *)
Inductive result (A : Type) :=
| Ret (a : A)
| Raise (e : exn)
| Exit (code : Z)
| OutOfFuel.
Arguments Ret {A}.
Arguments Raise {A}.
Arguments Exit {A}.
Arguments OutOfFuel {A}.

(** A computation: from a state to the state reached and what came of it. *)
Definition M (W A : Type) : Type := state W -> state W * result A.

Definition ret {W A} (a : A) : M W A := fun st => (st, Ret a).

Definition bind {W A B} (m : M W A) (k : A -> M W B) : M W B :=
  fun st =>
    match m st with
    | (st', Ret a) => k a st'
    | (st', Raise e) => (st', Raise e)
    | (st', Exit c) => (st', Exit c)
    | (st', OutOfFuel) => (st', OutOfFuel)
    end.

Declare Scope prog_scope.
Delimit Scope prog_scope with prog.
Notation "x <- m ;; k" := (bind m (fun x => k))
  (at level 61, m at next level, right associativity) : prog_scope.
Notation "m ;; k" := (bind m (fun _ => k))
  (at level 61, right associativity) : prog_scope.
Open Scope prog_scope.

Definition raise {W A} (e : exn) : M W A := fun st => (st, Raise e).

Definition out_of_fuel {W A} : M W A := fun st => (st, OutOfFuel).

(** Reading the world. *)
Definition gets {W A} (f : W -> A) : M W A := fun st => (st, Ret (f (world st))).

Definition emit {W} (e : event) : M W unit :=
  fun st => ({| world := world st; log := log st ++ [e] |}, Ret tt).

(** The state after one more line is printed. *)
Definition say {W} (st : state W) (f : stream) (line : str) : state W :=
  {| world := world st; log := log st ++ [Print f line] |}.

(** [print(line)] and [print(line, file=sys.stderr)]. *)
Definition print {W} (f : stream) (line : str) : M W unit := emit (Print f line).

(** A call that may change the world and may raise. *)
Definition call {W} (e : event) (f : W -> W * option exn) : M W unit :=
  fun st =>
    let (w', r) := f (world st) in
    let st' := {| world := w'; log := log st ++ [e] |} in
    match r with
    | None => (st', Ret tt)
    | Some x => (st', Raise x)
    end.

(** [try: m  except Exception as e: h e]. *)
Definition try_except_Exception {W A} (m : M W A) (h : exn -> M W A) : M W A :=
  fun st =>
    match m st with
    | (st', Raise e) => if is_Exception e then h e st' else (st', Raise e)
    | r => r
    end.

(** [for x in l: f x]. *)
Fixpoint for_each {W A} (l : list A) (f : A -> M W unit) : M W unit :=
  match l with
  | [] => ret tt
  | x :: rest => f x ;; for_each rest f
  end.

Definition sys_exit {W A} (code : Z) : M W A := fun st => (st, Exit code).

(** How the process ends, from what [main()] came to: a return is exit
    code 0, [sys.exit] its code, an uncaught [KeyboardInterrupt] the
    death by SIGINT, any other uncaught exception exit code 1. *)
Inductive status := Exited (code : Z) | Killed_by_SIGINT | Still_running.

Definition exit_status (r : result unit) : status :=
  match r with
  | Ret _ => Exited 0
  | Exit c => Exited c
  | Raise KeyboardInterrupt => Killed_by_SIGINT
  | Raise _ => Exited 1
  | OutOfFuel => Still_running
  end.

(** ** Invariants of runs

    [steps R m]: the state [m] ends in, however it ends, is related by
    [R] to the state it starts in.  [grows P Q]: the log grew by events
    that satisfy [P], and the worlds are related by [Q]. *)
Definition steps {W A} (R : state W -> state W -> Prop) (m : M W A) : Prop :=
  forall st, R st (fst (m st)).

Definition grows {W} (P : event -> Prop) (Q : W -> W -> Prop)
    (st st' : state W) : Prop :=
  Q (world st) (world st')
  /\ exists evs, log st' = log st ++ evs /\ Forall P evs.

Definition is_print (e : event) : Prop :=
  match e with Print _ _ => True | _ => False end.

(** The event is no request for a directory other than [d]. *)
Definition makes_only (d : str) (e : event) : Prop :=
  match e with Makedirs p => p = d | _ => True end.

(** The event is no line that reports a directory to be ensured. *)
Definition ensure_prefix : str := lit "[DRY] Ensure directory exists: ".

Definition no_ensure_line (e : event) : Prop :=
  match e with
  | Print _ line => startswith ensure_prefix line = false
  | _ => True
  end.

(** The directories asked for, in order. *)
Definition dir_requests (evs : list event) : list str :=
  flat_map (fun e => match e with Makedirs p => [p] | _ => [] end) evs.

(** The sources of the copies asked for, in order. *)
Definition copy_sources (evs : list event) : list str :=
  flat_map (fun e => match e with Copy2 s _ => [s] | _ => [] end) evs.

Definition interrupted_notice : str :=
  "010"%char :: lit "[INFO] Backup interrupted by user.".

(** The event is no line on standard output, the notice of an interrupt
    apart. *)
Definition only_errors (e : event) : Prop :=
  match e with
  | Print Stdout line => line = interrupted_notice
  | _ => True
  end.

Definition error_prefix : str := lit "[ERROR] ".

(** Error lines, and only they, are on standard error. *)
Definition streams_kept (e : event) : Prop :=
  match e with
  | Print Stderr line => startswith error_prefix line = true
  | Print Stdout line => startswith error_prefix line = false
  | _ => True
  end.

(** ** The script *)

(** The parsed command line. *)
Record args := {
  source : str; destination : str;
  flat : bool; dry_run : bool; verbose : bool
}.

Section Backup.

Context {W : Type} (os : OS W).

(** [os.walk(top)], top-down, links not followed: the directory is listed,
    the triple is handed to the loop body, and only then, one after the
    other, the directories listed are walked.  A directory that cannot be
    listed yields nothing.  [fuel] bounds the depth. *)
Fixpoint walk (fuel : nat) (top : str)
    (body : str -> list str -> list str -> M W unit) : M W unit :=
  match fuel with
  | O => out_of_fuel
  | S n =>
      listing <- gets (fun w => scandir os w top) ;;
      match listing with
      | inr (OSError _) => ret tt
      | inr e => raise e
      | inl (dirs, nondirs) =>
          body top dirs nondirs ;;
          for_each dirs (fun dirname =>
            let new_path := posixpath.join top [dirname] in
            link <- gets (fun w => path_islink os w new_path) ;;
            if link then ret tt else walk n new_path body)
      end
  end.

Definition unique_name (w : W) (path : str) : str :=
  if negb (path_exists os w path) then path
  else
    let base := posixpath.basename path in
    let (root, ext) := posixpath.splitext base in
    let ts := strftime (utcnow os w) in
    let new_base := root ++ lit "_" ++ ts ++ ext in
    posixpath.join (posixpath.dirname path) [new_base].

Definition copy_file (src_file dest_file : str) (dry_run verbose : bool)
  : M W unit :=
  target <- gets (fun w => unique_name w dest_file) ;;
  if dry_run then
    let action :=
      if negb (str_eqb target dest_file) then lit "RENAME" else lit "COPY" in
    print Stdout
      (lit "[DRY] " ++ action ++ lit ": " ++ src_file ++ lit " -> " ++ target)
  else
    try_except_Exception
      (call (Copy2 src_file target) (fun w => copy2 os w src_file target) ;;
       if verbose then
         let action :=
           if negb (str_eqb target dest_file) then lit "RENAMED"
           else lit "COPIED" in
         print Stdout
           (lit "[" ++ action ++ lit "] " ++ src_file ++ lit " -> " ++ target)
       else ret tt)
      (fun e =>
         print Stderr
           (lit "[ERROR] Failed to copy " ++ src_file ++ lit " -> " ++ target
            ++ lit ": " ++ str_of_exn e)).

(** The destination directory of a level (line 62). *)
Definition target_dir_of (dest_dir : str) (flat : bool) (rel : str) : str :=
  if flat then dest_dir
  else if negb (str_eqb rel (lit ".")) then posixpath.join dest_dir [rel]
  else dest_dir.

(** The body of the loop over [os.walk(src_dir)]. *)
Definition backup_level (src_dir dest_dir : str) (flat dry_run verbose : bool)
    (root : str) (dirs files : list str) : M W unit :=
  r <- gets (fun w => posixpath.relpath (getcwd os w) root src_dir) ;;
  match r with
  | None => raise (ValueError (lit "no path specified"))
  | Some rel =>
      let target_dir := target_dir_of dest_dir flat rel in
      (if negb dry_run then
         call (Makedirs target_dir) (fun w => makedirs os w target_dir)
       else if verbose then
         print Stdout (lit "[DRY] Ensure directory exists: " ++ target_dir)
       else ret tt) ;;
      for_each files (fun fname =>
        let src_file := posixpath.join root [fname] in
        let dest_file := posixpath.join target_dir [fname] in
        copy_file src_file dest_file dry_run verbose)
  end.

Definition backup_recursive (fuel : nat) (src_dir dest_dir : str)
    (flat dry_run verbose : bool) : M W unit :=
  walk fuel src_dir (backup_level src_dir dest_dir flat dry_run verbose).

(** [main()] after the command line is parsed (lines 83 to 110), in its
    three parts: the validation of the source, the preparation of the
    destination, the backup itself. *)
Definition validate_source (a : args) : M W unit :=
  ex <- gets (fun w => path_exists os w (source a)) ;;
  if negb ex then
    print Stderr (lit "[ERROR] Source directory does not exist: " ++ source a) ;;
    sys_exit 1
  else
    isd <- gets (fun w => path_isdir os w (source a)) ;;
    if negb isd then
      print Stderr (lit "[ERROR] Source is not a directory: " ++ source a) ;;
      sys_exit 1
    else ret tt.

Definition prepare_destination (a : args) : M W unit :=
  try_except_Exception
    ((if negb (dry_run a) then
        call (Makedirs (destination a)) (fun w => makedirs os w (destination a))
      else ret tt) ;;
     if verbose a then print Stdout (lit "Destination ready: " ++ destination a)
     else ret tt)
    (fun e =>
       print Stderr
         (lit "[ERROR] Cannot create or access destination directory: "
          ++ destination a ++ lit " (" ++ str_of_exn e ++ lit ")") ;;
       sys_exit 1).

Definition perform_backup (fuel : nat) (a : args) : M W unit :=
  fun st =>
    match (backup_recursive fuel (source a) (destination a)
             (flat a) (dry_run a) (verbose a) ;;
           if verbose a then print Stdout (lit "Backup completed.") else ret tt) st
    with
    | (st', Raise KeyboardInterrupt) =>
        (print Stdout ("010"%char :: lit "[INFO] Backup interrupted by user.") ;;
         sys_exit 130) st'
    | (st', Raise e) =>
        (print Stderr
           (lit "[ERROR] Unexpected error during backup: " ++ str_of_exn e) ;;
         sys_exit 1) st'
    | r => r
    end.

Definition main (fuel : nat) (a : args) : M W unit :=
  validate_source a ;;
  prepare_destination a ;;
  perform_backup fuel a.

End Backup.

(** ** What the calls of a run came to

    The outcome of every call that asks the machine for a change, kept
    beside the world: [recording os] is [os] with this record, and the
    run on it is the run on [os]. *)
Inductive outcome :=
| Made (p : str) (r : option exn)
| Copied (src dst : str) (r : option exn).

Definition recording {W} (os : OS W) : OS (W * list outcome) := {|
  path_exists := fun w => path_exists os (fst w);
  path_isdir := fun w => path_isdir os (fst w);
  path_islink := fun w => path_islink os (fst w);
  getcwd := fun w => getcwd os (fst w);
  utcnow := fun w => utcnow os (fst w);
  scandir := fun w => scandir os (fst w);
  makedirs := fun w p =>
    let (w', r) := makedirs os (fst w) p in ((w', snd w ++ [Made p r]), r);
  copy2 := fun w s t =>
    let (w', r) := copy2 os (fst w) s t in ((w', snd w ++ [Copied s t r]), r)
|}.

Definition recorded {W} (st : state W) : state (W * list outcome) :=
  {| world := (world st, []); log := log st |}.

(** The outcomes of the calls of the run of [main] from [st]. *)
Definition outcomes {W} (os : OS W) (fuel : nat) (a : args) (st : state W)
  : list outcome :=
  snd (world (fst (main (recording os) fuel a (recorded st)))).

(** No directory failed to be made, and what a copy raised, if anything,
    was an [Exception]. *)
Definition benign (o : outcome) : Prop :=
  match o with
  | Made _ r => r = None
  | Copied _ _ None => True
  | Copied _ _ (Some e) => is_Exception e = true
  end.

(** The line [copy_file] writes for a copy that failed. *)
Definition failed_copy_line (src_file target : str) (e : exn) : str :=
  lit "[ERROR] Failed to copy " ++ src_file ++ lit " -> " ++ target
  ++ lit ": " ++ str_of_exn e.

(** Two computations, each on its machine, that go the same way: from
    states related by [T] they end in states related by [T], with the
    same result. *)
Definition alike {W W' A} (T : state W -> state W' -> Prop)
    (m : M W A) (m' : M W' A) : Prop :=
  forall st st', T st st' ->
    T (fst (m st)) (fst (m' st')) /\ snd (m st) = snd (m' st').

(** Two worlds, each on its machine, in which the script reads the same. *)
Record same_view {W W'} (os : OS W) (os' : OS W') (w : W) (w' : W') : Prop := {
  view_exists : forall p, path_exists os w p = path_exists os' w' p;
  view_isdir : forall p, path_isdir os w p = path_isdir os' w' p;
  view_islink : forall p, path_islink os w p = path_islink os' w' p;
  view_getcwd : getcwd os w = getcwd os' w';
  view_utcnow : utcnow os w = utcnow os' w';
  view_scandir : forall p, scandir os w p = scandir os' w' p
}.

(** The state of a run on [os] and the state of the run on
    [recording os] beside it. *)
Definition tracks {W} (st : state W) (st' : state (W * list outcome)) : Prop :=
  world st = fst (world st') /\ log st = log st'.

(** [os] with copies that, where they would raise an [Exception], fail
    without a word: the world is left as the failed copy leaves it. *)
Definition forgiving {W} (os : OS W) : OS W := {|
  path_exists := path_exists os;
  path_isdir := path_isdir os;
  path_islink := path_islink os;
  getcwd := getcwd os;
  utcnow := utcnow os;
  scandir := scandir os;
  makedirs := makedirs os;
  copy2 := fun w s t =>
    match copy2 os w s t with
    | (w', Some e) => if is_Exception e then (w', None) else (w', Some e)
    | r => r
    end
|}.

(** What a run asked of the machine, in order: its log without the lines
    printed. *)
Definition requests (evs : list event) : list event :=
  filter (fun e => match e with Print _ _ => false | _ => true end) evs.

(** Two states of the same world, reached by the same requests. *)
Definition same_course {W} (st st' : state W) : Prop :=
  world st = world st' /\ requests (log st) = requests (log st').

(** A computation that returns whenever the record it ends with is
    benign. *)
Definition safe {W A} (m : M (W * list outcome) A) : Prop :=
  forall st, Forall benign (snd (world (fst (m st)))) ->
    exists a, snd (m st) = Ret a.

(** Every failed copy of the record is in the log, followed at once by
    its line on standard error. *)
Definition reported (evs : list event) (outs : list outcome) : Prop :=
  forall s t e, In (Copied s t (Some e)) outs -> is_Exception e = true ->
    exists before after,
      evs = before ++ Copy2 s t :: Print Stderr (failed_copy_line s t e) :: after.

Definition reporting {W} (st st' : state (W * list outcome)) : Prop :=
  exists evs outs,
    log st' = log st ++ evs
    /\ snd (world st') = snd (world st) ++ outs
    /\ reported evs outs.


(** ** Machines on which a walk ends

    Paths have a longest length, beyond which a directory cannot be
    listed, and the names a listing gives are not empty and hold no
    slash. *)
Record bounded_paths {W} (os : OS W) (N : nat) : Prop := {
  too_long : forall w p, (N <= List.length p)%nat ->
             exists msg, scandir os w p = inr (OSError msg);
  names_ok : forall w p dirs files d,
             scandir os w p = inl (dirs, files) -> In d dirs ->
             d <> [] /\ ~ In posixpath.sep d
}.

(** The computation comes to an end that is a value or an exception:
    it neither runs out of fuel nor leaves the process. *)
Definition proper {W A} (m : M W A) : Prop :=
  forall st, match snd (m st) with
             | Ret _ | Raise _ => True
             | Exit _ | OutOfFuel => False
             end.

(** ** A machine to run the script on

    A file system that is a tree of directories and regular files, a
    working directory, a clock that stands still for the length of a run,
    and a list of faults: the source files whose copy is to raise, and
    what (a PermissionError, the user's Ctrl-C).  Paths are resolved
    component by component from the root, [..] lexically; there are no
    links; a path of [PATH_MAX] characters or more is too long, and a
    listing shows the entries with a valid name. *)

Module TreeFS.

#[local] Set Warnings "-register-all".

Inductive node :=
| File (data : str)
| Dir (entries : list (str * node)).

Record machine := {
  root : node;
  cwd : str;
  now : datetime;
  faults : list (str * exn)
}.

Definition PATH_MAX : nat := 4096.

Fixpoint assoc {A} (k : str) (l : list (str * A)) : option A :=
  match l with
  | [] => None
  | (k', v) :: rest => if str_eqb k k' then Some v else assoc k rest
  end.

Fixpoint replace {A} (k : str) (v : A) (l : list (str * A)) : list (str * A) :=
  match l with
  | [] => []
  | (k', v') :: rest =>
      if str_eqb k k' then (k', v) :: rest else (k', v') :: replace k v rest
  end.

Fixpoint resolve_comps (comps acc : list str) : list str :=
  match comps with
  | [] => acc
  | c :: rest =>
      if null c || str_eqb c posixpath.curdir then resolve_comps rest acc
      else if str_eqb c posixpath.pardir then resolve_comps rest (removelast acc)
      else resolve_comps rest (acc ++ [c])
  end.

Definition resolve (w : machine) (p : str) : list str :=
  resolve_comps
    (split posixpath.sep (if posixpath.isabs p then p else cwd w ++ posixpath.sep :: p))
    [].

Fixpoint lookup (comps : list str) (n : node) : option node :=
  match comps with
  | [] => Some n
  | c :: rest =>
      match n with
      | Dir ents =>
          match assoc c ents with
          | Some m => lookup rest m
          | None => None
          end
      | File _ => None
      end
  end.

(** Writes [new] at [comps]: over what is there, or as a new entry of a
    directory that is. *)
Fixpoint put (comps : list str) (new : node) (n : node) : option node :=
  match comps with
  | [] => Some new
  | c :: rest =>
      match n with
      | Dir ents =>
          match assoc c ents with
          | Some m =>
              match put rest new m with
              | Some m' => Some (Dir (replace c m' ents))
              | None => None
              end
          | None =>
              match rest with
              | [] => Some (Dir (ents ++ [(c, new)]))
              | _ => None
              end
          end
      | File _ => None
      end
  end.

(** Makes the directories along [comps] that are missing; [None] when a
    regular file is in the way. *)
Fixpoint mkdirs (comps : list str) (n : node) : option node :=
  match comps with
  | [] => match n with Dir _ => Some n | File _ => None end
  | c :: rest =>
      match n with
      | Dir ents =>
          match assoc c ents with
          | Some m =>
              match mkdirs rest m with
              | Some m' => Some (Dir (replace c m' ents))
              | None => None
              end
          | None =>
              match mkdirs rest (Dir []) with
              | Some m' => Some (Dir (ents ++ [(c, m')]))
              | None => None
              end
          end
      | File _ => None
      end
  end.

Definition stat (w : machine) (p : str) : option node :=
  if null p || (PATH_MAX <=? List.length p)%nat then None
  else lookup (resolve w p) (root w).

Definition is_dir (n : node) : bool :=
  match n with Dir _ => true | File _ => false end.

Definition exists_ (w : machine) (p : str) : bool :=
  match stat w p with Some _ => true | None => false end.

Definition isdir (w : machine) (p : str) : bool :=
  match stat w p with Some (Dir _) => true | _ => false end.

(** A name in a directory is not empty and holds no slash. *)
Definition valid_name (n : str) : bool :=
  negb (null n) && negb (existsb (fun c => Ascii.eqb c posixpath.sep) n).

Definition listdir (w : machine) (p : str) : (list str * list str) + exn :=
  if (PATH_MAX <=? List.length p)%nat
  then inr (OSError (lit "[Errno 36] File name too long"))
  else
    match stat w p with
    | Some (Dir ents) =>
        let ents := filter (fun e => valid_name (fst e)) ents in
        inl (map fst (filter (fun e => is_dir (snd e)) ents),
             map fst (filter (fun e => negb (is_dir (snd e))) ents))
    | Some (File _) => inr (OSError (lit "[Errno 20] Not a directory"))
    | None => inr (OSError (lit "[Errno 2] No such file or directory"))
    end.

Definition set_root (w : machine) (r : node) : machine :=
  {| root := r; cwd := cwd w; now := now w; faults := faults w |}.

Definition do_makedirs (w : machine) (p : str) : machine * option exn :=
  if null p then (w, Some (OSError (lit "[Errno 2] No such file or directory")))
  else if (PATH_MAX <=? List.length p)%nat
  then (w, Some (OSError (lit "[Errno 36] File name too long")))
  else
    match mkdirs (resolve w p) (root w) with
    | Some r => (set_root w r, None)
    | None => (w, Some (OSError (lit "[Errno 17] File exists")))
    end.

Definition do_copy2 (w : machine) (src dst : str) : machine * option exn :=
  match assoc src (faults w) with
  | Some e => (w, Some e)
  | None =>
      let dst := if isdir w dst
                 then posixpath.join dst [posixpath.basename src] else dst in
      if (PATH_MAX <=? List.length dst)%nat
      then (w, Some (OSError (lit "[Errno 36] File name too long")))
      else
        match stat w src with
        | Some (File data) =>
            if list_eq_dec (list_eq_dec ascii_dec) (resolve w src) (resolve w dst)
            then (w, Some (OSError (lit "are the same file")))
            else
              match lookup (resolve w dst) (root w) with
              | Some (Dir _) => (w, Some (OSError (lit "[Errno 21] Is a directory")))
              | _ =>
                  match put (resolve w dst) (File data) (root w) with
                  | Some r => (set_root w r, None)
                  | None =>
                      (w, Some (OSError (lit "[Errno 2] No such file or directory")))
                  end
              end
        | Some (Dir _) => (w, Some (OSError (lit "[Errno 21] Is a directory")))
        | None => (w, Some (OSError (lit "[Errno 2] No such file or directory")))
        end
  end.

Definition os : OS machine := {|
  path_exists := exists_;
  path_isdir := isdir;
  path_islink := fun _ _ => false;
  getcwd := cwd;
  utcnow := now;
  scandir := listdir;
  makedirs := do_makedirs;
  copy2 := do_copy2
|}.

Definition start (w : machine) : state machine := {| world := w; log := [] |}.

(** The process from its command line to its end. *)
Definition run (fuel : nat) (a : args) (w : machine) : state machine * status :=
  let (st, r) := main os fuel a (start w) in (st, exit_status r).

End TreeFS.

(** ** Runs to look at *)

Module Scenario.

Import TreeFS.

Definition clock : datetime :=
  {| year := 2026; month := 1; day := 2; hour := 3; minute := 4; second := 5 |}.

Definition boot (tree : node) (faults : list (str * exn)) : machine :=
  {| root := tree; cwd := lit "/"; now := clock; faults := faults |}.

Definition request (flat dry_run verbose : bool) : args :=
  {| source := lit "/src"; destination := lit "/dst";
     flat := flat; dry_run := dry_run; verbose := verbose |}.

(** [/src] holds [a.txt], [sub/a.txt] and [sub/b.txt]; [/dst] is empty. *)
Definition two_levels : machine :=
  boot (Dir [(lit "src",
              Dir [(lit "a.txt", File (lit "A"));
                   (lit "sub", Dir [(lit "a.txt", File (lit "B"));
                                    (lit "b.txt", File (lit "C"))])]);
             (lit "dst", Dir [])]) [].

(** Three files of one name in [/src], [/src/x] and [/src/y]. *)
Definition three_namesakes : machine :=
  boot (Dir [(lit "src",
              Dir [(lit "a.txt", File (lit "A"));
                   (lit "x", Dir [(lit "a.txt", File (lit "B"))]);
                   (lit "y", Dir [(lit "a.txt", File (lit "C"))])]);
             (lit "dst", Dir [])]) [].

(** [/dst] holds [a.txt] and the name the clock gives its namesake. *)
Definition twice_taken : machine :=
  boot (Dir [(lit "dst",
              Dir [(lit "a.txt", File (lit "A"));
                   (lit "a_20260102-030405.txt", File (lit "B"))])]) [].

(** The copy of [/src/a.txt] is denied; [/src/b.txt] comes after it. *)
Definition one_denied : machine :=
  boot (Dir [(lit "src",
              Dir [(lit "a.txt", File (lit "A")); (lit "b.txt", File (lit "B"))]);
             (lit "dst", Dir [])])
       [(lit "/src/a.txt", OSError (lit "[Errno 13] Permission denied"))].

(** The user interrupts the copy of [/src/a.txt]. *)
Definition interrupted : machine :=
  boot (Dir [(lit "src",
              Dir [(lit "a.txt", File (lit "A")); (lit "b.txt", File (lit "B"))]);
             (lit "dst", Dir [])])
       [(lit "/src/a.txt", KeyboardInterrupt)].

(** [/dst] holds the hidden file [.env]. *)
Definition hidden_taken : machine :=
  boot (Dir [(lit "dst", Dir [(lit ".env", File (lit "A"))])]) [].

(** [/src] is a regular file. *)
Definition source_is_file : machine :=
  boot (Dir [(lit "src", File (lit "A")); (lit "dst", Dir [])]) [].

(** [/dst] is a regular file. *)
Definition destination_is_file : machine :=
  boot (Dir [(lit "src", Dir [(lit "a.txt", File (lit "A"))]);
             (lit "dst", File (lit "B"))]) [].

(** No [/src]. *)
Definition no_source : machine := boot (Dir [(lit "dst", Dir [])]) [].

(** [two_levels] with the copy of [/src/sub/a.txt] denied;
    [/src/sub/b.txt] comes after it. *)
Definition denied_below : machine :=
  boot (Dir [(lit "src",
              Dir [(lit "a.txt", File (lit "A"));
                   (lit "sub", Dir [(lit "a.txt", File (lit "B"));
                                    (lit "b.txt", File (lit "C"))])]);
             (lit "dst", Dir [])])
       [(lit "/src/sub/a.txt", OSError (lit "[Errno 13] Permission denied"))].

(** The tree machine with a user who interrupts every attempt to make
    a directory. *)
Definition impatient : OS machine := {|
  path_exists := exists_;
  path_isdir := isdir;
  path_islink := fun _ _ => false;
  getcwd := cwd;
  utcnow := now;
  scandir := listdir;
  makedirs := fun w _ => (w, Some KeyboardInterrupt);
  copy2 := do_copy2
|}.

End Scenario.

(** * Properties *)

(** ** Strings and paths *)

Lemma str_eqb_eq (a b : str) : str_eqb a b = true <-> a = b.
Proof.
  unfold str_eqb. destruct (list_eq_dec ascii_dec a b); split; congruence.
Qed.

Lemma str_eqb_refl (a : str) : str_eqb a a = true.
Proof. now apply str_eqb_eq. Qed.

Lemma str_eqb_neq (a b : str) : str_eqb a b = false <-> a <> b.
Proof.
  unfold str_eqb. destruct (list_eq_dec ascii_dec a b); split; congruence.
Qed.

Lemma rfind_lower (c : ascii) (p : str) : -1 <= rfind c p.
Proof.
  induction p as [|x q IH]; simpl; [lia|].
  destruct (0 <=? rfind c q) eqn:E; [apply Z.leb_le in E; lia|].
  destruct (Ascii.eqb x c); lia.
Qed.

Lemma rfind_notin (c : ascii) (p : str) : ~ In c p -> rfind c p = -1.
Proof.
  induction p as [|x q IH]; simpl; intros H; [reflexivity|].
  rewrite IH by tauto. simpl.
  destruct (Ascii.eqb x c) eqn:E; [|reflexivity].
  apply Ascii.eqb_eq in E. tauto.
Qed.

Lemma rfind_last (c : ascii) (a b : str) :
  ~ In c b -> rfind c (a ++ c :: b) = Z.of_nat (List.length a).
Proof.
  intros Hb. induction a as [|x a IH].
  - simpl. rewrite (rfind_notin c b Hb). simpl. now rewrite Ascii.eqb_refl.
  - cbn [app rfind List.length]. rewrite IH.
    destruct (0 <=? Z.of_nat (List.length a)) eqn:E.
    + lia.
    + apply Z.leb_gt in E. lia.
Qed.

(** A string either has no [c], or splits at its last [c]. *)
Lemma rfind_cases (c : ascii) (p : str) :
  (~ In c p /\ rfind c p = -1)
  \/ exists a b, p = a ++ c :: b /\ ~ In c b
                 /\ rfind c p = Z.of_nat (List.length a).
Proof.
  induction p as [|x q IH].
  - left. simpl. tauto.
  - destruct IH as [[Hn Hr]|(a & b & Hq & Hb & Hr)].
    + destruct (ascii_dec x c) as [->|Hx].
      * right. exists [], q. repeat split; auto.
        exact (rfind_last c [] q Hn).
      * left. split; [simpl; intuition congruence|].
        apply rfind_notin. simpl. intuition congruence.
    + right. exists (x :: a), b. subst q. repeat split; auto.
      exact (rfind_last c (x :: a) b Hb).
Qed.

Lemma firstn_length_app {A} (a b : list A) :
  firstn (List.length a) (a ++ b) = a.
Proof.
  rewrite firstn_app, Nat.sub_diag, firstn_all. simpl. apply app_nil_r.
Qed.

Lemma skipn_length_app {A} (a b : list A) :
  skipn (List.length a) (a ++ b) = b.
Proof.
  rewrite skipn_app, Nat.sub_diag, skipn_all. reflexivity.
Qed.

Lemma endswith_char_snoc (c x : ascii) (p : str) :
  endswith_char c (p ++ [x]) = Ascii.eqb x c.
Proof. unfold endswith_char. now rewrite rev_unit. Qed.

Lemma endswith_char_cons (c x y : ascii) (q : str) :
  endswith_char c (x :: y :: q) = endswith_char c (y :: q).
Proof.
  destruct (exists_last (l := y :: q)) as (l & z & E); [discriminate|].
  rewrite E. change (x :: l ++ [z]) with ((x :: l) ++ [z]).
  now rewrite !endswith_char_snoc.
Qed.

Lemma rstrip_nil_iff (c : ascii) (p : str) :
  rstrip c p = [] <-> forallb (fun x => Ascii.eqb x c) p = true.
Proof.
  induction p as [|x q IH]; simpl; [tauto|].
  destruct (rstrip c q) eqn:E.
  - destruct (Ascii.eqb x c); simpl; [tauto|].
    split; intros; discriminate.
  - split; [discriminate|]. intros H. apply andb_true_iff in H.
    destruct H as [_ H]. apply IH in H. discriminate.
Qed.

Lemma rstrip_endswith (c : ascii) (p : str) :
  endswith_char c (rstrip c p) = false.
Proof.
  induction p as [|x q IH]; simpl; [reflexivity|].
  destruct (rstrip c q) as [|y r] eqn:E.
  - destruct (Ascii.eqb x c) eqn:Ex; [reflexivity|].
    unfold endswith_char. simpl. exact Ex.
  - now rewrite endswith_char_cons.
Qed.

Lemma rstrip_fixed (c : ascii) (p : str) :
  endswith_char c p = false -> rstrip c p = p.
Proof.
  induction p as [|x q IH]; simpl; intros H; [reflexivity|].
  destruct q as [|y q'].
  - simpl. unfold endswith_char in H. simpl in H. now rewrite H.
  - rewrite endswith_char_cons in H. rewrite (IH H). reflexivity.
Qed.

Lemma rstrip_snoc (c : ascii) (p : str) :
  rstrip c (p ++ [c]) = rstrip c p.
Proof.
  induction p as [|x q IH]; simpl.
  - now rewrite Ascii.eqb_refl.
  - now rewrite IH.
Qed.

Lemma all_sep_snoc (x : ascii) (p : str) :
  posixpath.all_sep (p ++ [x])
  = posixpath.all_sep p && Ascii.eqb x posixpath.sep.
Proof.
  unfold posixpath.all_sep. rewrite forallb_app. simpl.
  now rewrite andb_true_r.
Qed.

Lemma all_sep_endswith (p : str) :
  p <> [] -> posixpath.all_sep p = true ->
  endswith_char posixpath.sep p = true.
Proof.
  intros Hne H. destruct (exists_last Hne) as (l & z & ->).
  rewrite all_sep_snoc in H. apply andb_true_iff in H.
  now rewrite endswith_char_snoc.
Qed.

Lemma not_endswith_not_all_sep (p : str) :
  p <> [] -> endswith_char posixpath.sep p = false ->
  posixpath.all_sep p = false.
Proof.
  intros Hne H. destruct (posixpath.all_sep p) eqn:E; [|reflexivity].
  rewrite (all_sep_endswith p Hne E) in H. discriminate.
Qed.

Lemma startswith_sep_notin (b : str) :
  ~ In posixpath.sep b -> startswith [posixpath.sep] b = false.
Proof.
  intros H. unfold startswith. apply str_eqb_neq.
  destruct b as [|x b]; simpl; [discriminate|].
  intros E. injection E as ->. apply H. now left.
Qed.

(** The name after the last slash has no slash. *)
Lemma basename_no_sep (p : str) : ~ In posixpath.sep (posixpath.basename p).
Proof.
  unfold posixpath.basename, slice_from.
  destruct (rfind_cases posixpath.sep p) as [[Hn ->]|(a & b & -> & Hb & ->)].
  - exact Hn.
  - replace (Z.to_nat (Z.of_nat (List.length a) + 1))
      with (List.length (a ++ [posixpath.sep]))
      by (rewrite length_app; simpl; lia).
    change (a ++ posixpath.sep :: b) with (a ++ [posixpath.sep] ++ b).
    rewrite app_assoc, skipn_length_app. exact Hb.
Qed.

(** A directory name is made of slashes only, or does not end in one. *)
Lemma dirname_shape (p : str) :
  posixpath.all_sep (posixpath.dirname p) = true
  \/ endswith_char posixpath.sep (posixpath.dirname p) = false.
Proof.
  unfold posixpath.dirname.
  generalize (slice_to p (rfind posixpath.sep p + 1)) as head. intros head.
  destruct (posixpath.all_sep head) eqn:Ea.
  - rewrite andb_false_r. now left.
  - destruct (null head) eqn:En; cbn [negb andb].
    + destruct head; [discriminate Ea|discriminate En].
    + right. apply rstrip_endswith.
Qed.

(** Joining a directory name and a name without slash, and splitting the
    result, gives the two back. *)
Lemma split_join (d b : str) :
  ~ In posixpath.sep b ->
  posixpath.all_sep d = true \/ endswith_char posixpath.sep d = false ->
  posixpath.basename (posixpath.join d [b]) = b
  /\ posixpath.dirname (posixpath.join d [b]) = d.
Proof.
  intros Hb Hd.
  unfold posixpath.join, posixpath.join1. cbn [fold_left].
  rewrite (startswith_sep_notin b Hb).
  destruct (list_eq_dec ascii_dec d []) as [->|Hne].
  - simpl. unfold posixpath.basename, posixpath.dirname, slice_from, slice_to.
    rewrite (rfind_notin _ _ Hb). simpl. auto.
  - assert (Hnull : null d = false) by (destruct d; [congruence|reflexivity]).
    assert (Hlen : forall a : str,
               Z.to_nat (Z.of_nat (List.length a) + 1)
               = List.length (a ++ [posixpath.sep]))
      by (intros a; rewrite length_app; simpl; lia).
    rewrite Hnull. cbn [orb].
    destruct (endswith_char posixpath.sep d) eqn:Ee.
    + destruct Hd as [Ha|Hd]; [|discriminate].
      destruct (exists_last Hne) as (a & z & Ez). subst d.
      rewrite endswith_char_snoc in Ee. apply Ascii.eqb_eq in Ee. subst z.
      rewrite <- app_assoc. cbn [app].
      unfold posixpath.basename, posixpath.dirname, slice_from, slice_to.
      rewrite (rfind_last _ a b Hb), Hlen.
      change (a ++ posixpath.sep :: b) with (a ++ [posixpath.sep] ++ b).
      rewrite app_assoc, skipn_length_app, firstn_length_app.
      split; [reflexivity|]. rewrite Ha. now rewrite andb_false_r.
    + unfold posixpath.basename, posixpath.dirname, slice_from, slice_to.
      rewrite (rfind_last _ d b Hb), Hlen.
      change (d ++ posixpath.sep :: b) with (d ++ [posixpath.sep] ++ b).
      rewrite app_assoc, skipn_length_app, firstn_length_app.
      split; [reflexivity|].
      rewrite all_sep_snoc, (not_endswith_not_all_sep d Hne Ee).
      replace (null (d ++ [posixpath.sep])) with false
        by (destruct d; [congruence|reflexivity]).
      cbn [negb andb]. rewrite rstrip_snoc. now apply rstrip_fixed.
Qed.

(** The two halves of [splitext] make up the name. *)
Lemma splitext_app (p : str) :
  fst (posixpath.splitext p) ++ snd (posixpath.splitext p) = p.
Proof.
  unfold posixpath.splitext.
  destruct (_ && _); simpl; [apply firstn_skipn|apply app_nil_r].
Qed.

(** A name with no dot has no extension. *)
Lemma splitext_no_dot (p : str) :
  ~ In posixpath.extsep p -> posixpath.splitext p = (p, []).
Proof.
  intros H. unfold posixpath.splitext.
  rewrite (rfind_notin _ _ H).
  pose proof (rfind_lower posixpath.sep p).
  replace (rfind posixpath.sep p <? -1) with false
    by (symmetry; apply Z.ltb_ge; lia).
  reflexivity.
Qed.

(** A slash-free name that is dots and then a part with no dot has no
    extension: the dots are skipped as leading dots. *)
Lemma splitext_scan_dots (p : str) (i : Z) (n : nat) :
  (forall k, (k < n)%nat ->
     nth_error p (Z.to_nat i + k) = Some posixpath.extsep) ->
  0 <= i ->
  posixpath.splitext_scan p i n = false.
Proof.
  revert i. induction n as [|n IH]; intros i H Hi;
    cbn [posixpath.splitext_scan]; [reflexivity|].
  assert (E : firstn 1 (slice_from p i) = [posixpath.extsep]).
  { unfold slice_from. specialize (H 0%nat ltac:(lia)).
    rewrite Nat.add_0_r in H. revert H. generalize (Z.to_nat i) as m.
    clear. intros m. revert p. induction m as [|m IHm]; intros [|x p] H;
      simpl in *; try discriminate.
    - injection H as ->. reflexivity.
    - now apply IHm. }
  rewrite E, str_eqb_refl. cbn [negb]. apply IH; [|lia].
  intros k Hk. specialize (H (S k) ltac:(lia)).
  replace (Z.to_nat (i + 1) + k)%nat with (Z.to_nat i + S k)%nat by lia.
  exact H.
Qed.

Lemma splitext_leading_dots (n : nat) (s : str) :
  ~ In posixpath.extsep s -> ~ In posixpath.sep s ->
  posixpath.splitext (repeat posixpath.extsep n ++ s)
  = (repeat posixpath.extsep n ++ s, []).
Proof.
  intros Hdot Hsep.
  destruct n as [|n]; [now apply splitext_no_dot|].
  unfold posixpath.splitext.
  assert (Hs : rfind posixpath.sep (repeat posixpath.extsep (S n) ++ s) = -1).
  { apply rfind_notin. rewrite in_app_iff. intros [H|H]; [|tauto].
    apply repeat_spec in H. discriminate. }
  assert (Hd : rfind posixpath.extsep (repeat posixpath.extsep (S n) ++ s)
               = Z.of_nat n).
  { replace (repeat posixpath.extsep (S n)) with
      (repeat posixpath.extsep n ++ [posixpath.extsep])
      by (rewrite <- repeat_cons; reflexivity).
    rewrite <- app_assoc. simpl.
    rewrite (rfind_last _ _ _ Hdot). now rewrite repeat_length. }
  rewrite Hs, Hd.
  rewrite splitext_scan_dots; [now rewrite andb_false_r| |lia].
  intros k Hk. simpl Z.to_nat. simpl Nat.add.
  rewrite nth_error_app1 by (rewrite repeat_length; lia).
  apply nth_error_repeat. lia.
Qed.

(** ** The timestamp *)

Lemma nat_of_digit (d : Z) :
  0 <= d <= 9 -> nat_of_ascii (digit d) = (48 + Z.to_nat d)%nat.
Proof.
  intros H. unfold digit. apply nat_ascii_embedding. lia.
Qed.

Lemma is_digit_digit (d : Z) : 0 <= d <= 9 -> is_digit (digit d) = true.
Proof.
  intros H. unfold is_digit. rewrite (nat_of_digit d H).
  apply andb_true_iff. split; apply Nat.leb_le; lia.
Qed.

Lemma str_compare_digit (a b : Z) (s t : str) :
  0 <= a <= 9 -> 0 <= b <= 9 ->
  str_compare (digit a :: s) (digit b :: t)
  = lex (a ?= b) (str_compare s t).
Proof.
  intros Ha Hb. cbn [str_compare].
  rewrite (nat_of_digit a Ha), (nat_of_digit b Hb).
  destruct (Z.compare_spec a b) as [->|H|H].
  - now rewrite Nat.compare_refl.
  - replace (48 + Z.to_nat a ?= 48 + Z.to_nat b)%nat with Lt; [reflexivity|].
    symmetry. apply Nat.compare_lt_iff. lia.
  - replace (48 + Z.to_nat a ?= 48 + Z.to_nat b)%nat with Gt; [reflexivity|].
    symmetry. apply Nat.compare_gt_iff. lia.
Qed.

Lemma lex_digits (k a1 a0 b1 b0 : Z) (r : comparison) :
  0 <= a0 < k -> 0 <= b0 < k ->
  lex (a1 ?= b1) (lex (a0 ?= b0) r) = lex (k * a1 + a0 ?= k * b1 + b0) r.
Proof.
  intros Ha Hb.
  destruct (Z.compare_spec a1 b1) as [->|H|H]; cbn [lex].
  - destruct (Z.compare_spec a0 b0) as [->|H|H]; cbn [lex].
    + now rewrite Z.compare_refl.
    + replace (k * b1 + a0 ?= k * b1 + b0) with Lt; [reflexivity|].
      symmetry. apply Z.compare_lt_iff. lia.
    + replace (k * b1 + a0 ?= k * b1 + b0) with Gt; [reflexivity|].
      symmetry. apply Z.compare_gt_iff. lia.
  - replace (k * a1 + a0 ?= k * b1 + b0) with Lt; [reflexivity|].
    symmetry. apply Z.compare_lt_iff. nia.
  - replace (k * a1 + a0 ?= k * b1 + b0) with Gt; [reflexivity|].
    symmetry. apply Z.compare_gt_iff. nia.
Qed.

Lemma digit_bounds (n k : Z) : 0 < k -> 0 <= n / k mod 10 <= 9.
Proof. intros _. pose proof (Z.mod_pos_bound (n / k) 10). lia. Qed.

Lemma mod10_bounds (n : Z) : 0 <= n mod 10 <= 9.
Proof. pose proof (Z.mod_pos_bound n 10). lia. Qed.

(** Two-digit fields compare as the numbers they print. *)
Lemma str_compare_pad2 (m n : Z) (s t : str) :
  0 <= m <= 99 -> 0 <= n <= 99 ->
  str_compare (pad2 m ++ s) (pad2 n ++ t) = lex (m ?= n) (str_compare s t).
Proof.
  intros Hm Hn. unfold pad2. cbn [app].
  rewrite str_compare_digit by (apply digit_bounds; lia).
  rewrite str_compare_digit by apply mod10_bounds.
  rewrite (lex_digits 10) by (Z.div_mod_to_equations; lia).
  f_equal. f_equal; Z.div_mod_to_equations; lia.
Qed.

Lemma str_compare_pad4 (m n : Z) (s t : str) :
  0 <= m <= 9999 -> 0 <= n <= 9999 ->
  str_compare (pad4 m ++ s) (pad4 n ++ t) = lex (m ?= n) (str_compare s t).
Proof.
  intros Hm Hn. unfold pad4. cbn [app].
  rewrite !str_compare_digit
    by first [apply digit_bounds; lia | apply mod10_bounds].
  rewrite (lex_digits 10 (m / 10 mod 10)) by (Z.div_mod_to_equations; lia).
  rewrite (lex_digits 100 (m / 100 mod 10)) by (Z.div_mod_to_equations; lia).
  rewrite (lex_digits 1000 (m / 1000 mod 10)) by (Z.div_mod_to_equations; lia).
  f_equal. f_equal; Z.div_mod_to_equations; lia.
Qed.

(** The timestamps sort as the times they print. *)
Lemma strftime_sortable (a b : datetime) :
  valid_datetime a -> valid_datetime b ->
  str_compare (strftime a) (strftime b) = datetime_compare a b.
Proof.
  intros (Ya & Ma & Da & Ha & Mia & Sa) (Yb & Mb & Db & Hb & Mib & Sb).
  unfold strftime, datetime_compare.
  rewrite str_compare_pad4 by lia.
  rewrite !str_compare_pad2 by lia.
  change (lit "-" ++ ?x) with ("-"%char :: x).
  cbn [str_compare]. rewrite Nat.compare_refl. cbn [lex].
  rewrite !str_compare_pad2 by lia.
  replace (pad2 (second a)) with (pad2 (second a) ++ []) by apply app_nil_r.
  replace (pad2 (second b)) with (pad2 (second b) ++ []) by apply app_nil_r.
  rewrite str_compare_pad2 by lia. cbn [str_compare].
  destruct (second a ?= second b); reflexivity.
Qed.

Lemma strftime_length (dt : datetime) : List.length (strftime dt) = 15%nat.
Proof. reflexivity. Qed.

Lemma int_of_pad2 (n : Z) : 0 <= n <= 99 -> int_of_digits (pad2 n) = n.
Proof.
  intros H. unfold int_of_digits, pad2. cbn [fold_left].
  rewrite !nat_of_digit by first [apply digit_bounds; lia | apply mod10_bounds].
  pose proof (digit_bounds n 10 ltac:(lia)). pose proof (mod10_bounds n).
  rewrite !Nat2Z.inj_add, !Z2Nat.id by lia.
  Z.div_mod_to_equations; lia.
Qed.

Lemma int_of_pad4 (n : Z) : 0 <= n <= 9999 -> int_of_digits (pad4 n) = n.
Proof.
  intros H. unfold int_of_digits, pad4. cbn [fold_left].
  rewrite !nat_of_digit by first [apply digit_bounds; lia | apply mod10_bounds].
  pose proof (digit_bounds n 1000 ltac:(lia)).
  pose proof (digit_bounds n 100 ltac:(lia)).
  pose proof (digit_bounds n 10 ltac:(lia)). pose proof (mod10_bounds n).
  rewrite !Nat2Z.inj_add, !Z2Nat.id by lia.
  Z.div_mod_to_equations; lia.
Qed.

Lemma pad2_digits (n : Z) : forallb is_digit (pad2 n) = true.
Proof.
  unfold pad2. cbn [forallb].
  rewrite !is_digit_digit by first [apply digit_bounds; lia | apply mod10_bounds].
  reflexivity.
Qed.

Lemma pad4_digits (n : Z) : forallb is_digit (pad4 n) = true.
Proof.
  unfold pad4. cbn [forallb].
  rewrite !is_digit_digit by first [apply digit_bounds; lia | apply mod10_bounds].
  reflexivity.
Qed.

Lemma prints_pad2 (n : Z) : 0 <= n <= 99 -> prints 2 n (pad2 n).
Proof.
  intros H. split; [reflexivity|]. split; [apply pad2_digits|].
  now apply int_of_pad2.
Qed.

Lemma prints_pad4 (n : Z) : 0 <= n <= 9999 -> prints 4 n (pad4 n).
Proof.
  intros H. split; [reflexivity|]. split; [apply pad4_digits|].
  now apply int_of_pad4.
Qed.

Lemma strftime_timestamp (dt : datetime) :
  valid_datetime dt -> timestamp_of dt (strftime dt).
Proof.
  intros (HY & Hm & Hd & HH & HM & HS).
  exists (pad4 (year dt)), (pad2 (month dt)), (pad2 (day dt)),
         (pad2 (hour dt)), (pad2 (minute dt)), (pad2 (second dt)).
  split; [reflexivity|].
  split; [apply prints_pad4; lia|].
  split; [apply prints_pad2; lia|].
  split; [apply prints_pad2; lia|].
  split; [apply prints_pad2; lia|].
  split; apply prints_pad2; lia.
Qed.

Lemma digits_no_sep (s : str) :
  forallb is_digit s = true -> ~ In posixpath.sep s.
Proof.
  intros H Hin. rewrite forallb_forall in H. specialize (H _ Hin).
  vm_compute in H. discriminate H.
Qed.

Lemma strftime_no_sep (dt : datetime) : ~ In posixpath.sep (strftime dt).
Proof.
  unfold strftime. rewrite !in_app_iff.
  pose proof (digits_no_sep _ (pad4_digits (year dt))).
  pose proof (digits_no_sep _ (pad2_digits (month dt))).
  pose proof (digits_no_sep _ (pad2_digits (day dt))).
  pose proof (digits_no_sep _ (pad2_digits (hour dt))).
  pose proof (digits_no_sep _ (pad2_digits (minute dt))).
  pose proof (digits_no_sep _ (pad2_digits (second dt))).
  assert (~ In posixpath.sep (lit "-")) by (simpl; intros [E|[]]; discriminate).
  tauto.
Qed.

(** ** The Collision Resolver *)

Section Resolver.

Context {W : Type} (os : OS W).

Lemma unique_name_free (w : W) (path : str) :
  path_exists os w path = false -> unique_name os w path = path.
Proof. intros H. unfold unique_name. now rewrite H. Qed.

Lemma unique_name_taken (w : W) (path : str) :
  path_exists os w path = true ->
  unique_name os w path
  = posixpath.join (posixpath.dirname path)
      [fst (posixpath.splitext (posixpath.basename path)) ++ lit "_"
       ++ strftime (utcnow os w)
       ++ snd (posixpath.splitext (posixpath.basename path))].
Proof.
  intros H. unfold unique_name. rewrite H. cbn [negb].
  now destruct (posixpath.splitext (posixpath.basename path)).
Qed.

Lemma new_base_no_sep (path ts : str) :
  ~ In posixpath.sep ts ->
  ~ In posixpath.sep
      (fst (posixpath.splitext (posixpath.basename path)) ++ lit "_" ++ ts
       ++ snd (posixpath.splitext (posixpath.basename path))).
Proof.
  intros Hts. pose proof (basename_no_sep path) as Hb.
  rewrite <- (splitext_app (posixpath.basename path)) in Hb.
  rewrite !in_app_iff in *.
  assert (~ In posixpath.sep (lit "_")) by (simpl; intros [E|[]]; discriminate).
  tauto.
Qed.

(** C1. Where nothing exists at the candidate path, [unique_name] returns
    it unchanged.  Where something does, it returns a path in the same
    directory, whose base name is the stem of the candidate's, an
    underscore, the UTC time of the clock, and the candidate's extension;
    the time is written as four digits of year, two of month, two of day,
    one separator, two digits each of hour, minute and second, so that it
    has a fixed width and sorts as the times do. *)
Theorem unique_name_spec (w : W) (path : str) :
  valid_datetime (utcnow os w) ->
  (path_exists os w path = false -> unique_name os w path = path)
  /\ (path_exists os w path = true ->
      let stem := fst (posixpath.splitext (posixpath.basename path)) in
      let ext := snd (posixpath.splitext (posixpath.basename path)) in
      let ts := strftime (utcnow os w) in
      stem ++ ext = posixpath.basename path
      /\ posixpath.dirname (unique_name os w path) = posixpath.dirname path
      /\ posixpath.basename (unique_name os w path)
         = stem ++ lit "_" ++ ts ++ ext
      /\ timestamp_of (utcnow os w) ts
      /\ List.length ts = 15%nat
      /\ forall dt, valid_datetime dt ->
           str_compare ts (strftime dt) = datetime_compare (utcnow os w) dt).
Proof.
  intros Hv. split; [apply unique_name_free|].
  intros Hex stem ext ts.
  split; [apply splitext_app|].
  rewrite (unique_name_taken w path Hex). fold stem ext ts.
  destruct (split_join (posixpath.dirname path) (stem ++ lit "_" ++ ts ++ ext))
    as [Hb Hd].
  - apply new_base_no_sep, strftime_no_sep.
  - apply dirname_shape.
  - split; [exact Hd|]. split; [exact Hb|].
    split; [now apply strftime_timestamp|].
    split; [apply strftime_length|].
    intros dt Hdt. now apply strftime_sortable.
Qed.

(** C10. Where the candidate exists and its base name has no extension
    for [splitext] (it has no dot, or only dots in front, as [.env]), the
    underscore and the timestamp go to the very end of the name, and
    nothing follows them. *)
Theorem unique_name_no_extension (w : W) (path : str) (n : nat) (s : str) :
  path_exists os w path = true ->
  posixpath.basename path = repeat posixpath.extsep n ++ s ->
  ~ In posixpath.extsep s ->
  posixpath.splitext (posixpath.basename path) = (posixpath.basename path, [])
  /\ unique_name os w path
     = posixpath.join (posixpath.dirname path)
         [posixpath.basename path ++ lit "_" ++ strftime (utcnow os w)]
  /\ posixpath.basename (unique_name os w path)
     = posixpath.basename path ++ lit "_" ++ strftime (utcnow os w).
Proof.
  intros Hex Hb Hs.
  assert (Hsplit : posixpath.splitext (posixpath.basename path)
                   = (posixpath.basename path, [])).
  { rewrite Hb. apply splitext_leading_dots; [exact Hs|].
    pose proof (basename_no_sep path) as H. rewrite Hb, in_app_iff in H.
    tauto. }
  split; [exact Hsplit|].
  pose proof (unique_name_taken w path Hex) as E.
  rewrite Hsplit in E. cbn [fst snd] in E. rewrite !app_nil_r in E.
  split; [exact E|].
  rewrite E. apply split_join; [|apply dirname_shape].
  pose proof (new_base_no_sep path _ (strftime_no_sep (utcnow os w))) as H.
  rewrite Hsplit in H. cbn [fst snd] in H. now rewrite !app_nil_r in H.
Qed.

(** What the resolver does guarantee where the candidate exists: the
    path it returns is another one. *)
Lemma unique_name_differs (w : W) (path : str) :
  path_exists os w path = true -> unique_name os w path <> path.
Proof.
  intros Hex E.
  assert (Hb : posixpath.basename (unique_name os w path)
               = posixpath.basename path) by now rewrite E.
  rewrite (unique_name_taken w path Hex) in Hb.
  destruct (split_join (posixpath.dirname path)
              (fst (posixpath.splitext (posixpath.basename path)) ++ lit "_"
               ++ strftime (utcnow os w)
               ++ snd (posixpath.splitext (posixpath.basename path))))
    as [Hb' _].
  - apply new_base_no_sep, strftime_no_sep.
  - apply dirname_shape.
  - pose proof (f_equal (@List.length ascii) (eq_trans (eq_sym Hb') Hb)) as L.
    pose proof (f_equal (@List.length ascii)
                  (splitext_app (posixpath.basename path))) as L'.
    repeat rewrite length_app in L. rewrite length_app in L'.
    rewrite strftime_length in L.
    change (List.length (lit "_")) with 1%nat in L. lia.
Qed.

End Resolver.

(** ** What every step of a run respects

    A relation between the state before and the state after that holds of
    the primitive steps, and is reflexive and transitive, holds of the
    loops built from them: of the state reached when the computation
    ends, however it ends, the end of the fuel included. *)

Section Steps.

Context {W : Type}.
Variable R : state W -> state W -> Prop.
Hypothesis R_refl : forall st, R st st.
Hypothesis R_trans : forall a b c, R a b -> R b c -> R a c.

Lemma steps_ret {A} (a : A) : steps R (ret a).
Proof. intros st. apply R_refl. Qed.

Lemma steps_raise {A} (e : exn) : steps R (@raise W A e).
Proof. intros st. apply R_refl. Qed.

Lemma steps_sys_exit {A} (c : Z) : steps R (@sys_exit W A c).
Proof. intros st. apply R_refl. Qed.

Lemma steps_out_of_fuel {A} : steps R (@out_of_fuel W A).
Proof. intros st. apply R_refl. Qed.

Lemma steps_gets {A} (f : W -> A) : steps R (gets f).
Proof. intros st. apply R_refl. Qed.

Lemma steps_bind {A B} (m : M W A) (k : A -> M W B) :
  steps R m -> (forall a, steps R (k a)) -> steps R (bind m k).
Proof.
  intros Hm Hk st. unfold bind. specialize (Hm st).
  destruct (m st) as [st' [a|e|c|]]; cbn [fst] in *; auto.
  eapply R_trans; [exact Hm|apply Hk].
Qed.

Lemma steps_try {A} (m : M W A) (h : exn -> M W A) :
  steps R m -> (forall e, steps R (h e)) -> steps R (try_except_Exception m h).
Proof.
  intros Hm Hh st. unfold try_except_Exception. specialize (Hm st).
  destruct (m st) as [st' [a|e|c|]]; cbn [fst] in *; auto.
  destruct (is_Exception e); cbn [fst]; auto.
  eapply R_trans; [exact Hm|apply Hh].
Qed.

Lemma steps_for_each {A} (l : list A) (f : A -> M W unit) :
  (forall x, steps R (f x)) -> steps R (for_each l f).
Proof.
  intros Hf. induction l as [|x l IH]; cbn [for_each].
  - apply steps_ret.
  - apply steps_bind; auto.
Qed.

Lemma steps_if {A} (b : bool) (m1 m2 : M W A) :
  steps R m1 -> steps R m2 -> steps R (if b then m1 else m2).
Proof. now destruct b. Qed.

Lemma steps_walk (os : OS W) (body : str -> list str -> list str -> M W unit) :
  (forall root dirs files, steps R (body root dirs files)) ->
  forall fuel top, steps R (walk os fuel top body).
Proof.
  intros Hbody. induction fuel as [|n IH]; intros top; cbn [walk].
  - apply steps_out_of_fuel.
  - apply steps_bind; [apply steps_gets|].
    intros [[dirs nondirs]|e].
    + apply steps_bind; [apply Hbody|]. intros _.
      apply steps_for_each. intros d.
      apply steps_bind; [apply steps_gets|].
      intros link. apply steps_if; [apply steps_ret|apply IH].
    + destruct e; [apply steps_ret|apply steps_raise|apply steps_raise].
Qed.

End Steps.

Lemma grows_refl {W} (P : event -> Prop) (Q : W -> W -> Prop) :
  (forall w, Q w w) -> forall st, grows P Q st st.
Proof.
  intros HQ st. split; [apply HQ|]. exists []. now rewrite app_nil_r.
Qed.

Lemma grows_trans {W} (P : event -> Prop) (Q : W -> W -> Prop) :
  (forall a b c, Q a b -> Q b c -> Q a c) ->
  forall a b c, grows P Q a b -> grows P Q b c -> grows P Q a c.
Proof.
  intros HQ a b c [Q1 (e1 & L1 & F1)] [Q2 (e2 & L2 & F2)].
  split; [eauto|]. exists (e1 ++ e2). split.
  - now rewrite L2, L1, app_assoc.
  - apply Forall_app. now split.
Qed.

Lemma grows_emit {W} (P : event -> Prop) (Q : W -> W -> Prop) (e : event) :
  (forall w, Q w w) -> P e -> steps (grows P Q) (@emit W e).
Proof.
  intros HQ He st. split; [apply HQ|]. exists [e]. split; [reflexivity|].
  now constructor.
Qed.

Lemma grows_call {W} (P : event -> Prop) (Q : W -> W -> Prop) (e : event)
    (f : W -> W * option exn) :
  (forall w, Q w (fst (f w))) -> P e -> steps (grows P Q) (call e f).
Proof.
  intros HQ He st. unfold call. specialize (HQ (world st)).
  destruct (f (world st)) as [w' [x|]]; cbn [fst] in *;
    (split; [exact HQ|]; exists [e]; split; [reflexivity|now constructor]).
Qed.

(** ** Runs: what is touched and what is said *)

Ltac step :=
  first [ apply steps_ret | apply steps_raise | apply steps_sys_exit
        | apply steps_out_of_fuel | apply steps_gets
        | apply steps_bind | apply steps_try | apply steps_for_each
        | apply steps_if ];
  try assumption; intros.

(** Takes a program apart down to its prints and calls. *)
Ltac prog :=
  repeat first
    [ progress cbn [negb]
    | step
    | match goal with
      | |- steps _ (match ?x with _ => _ end) => destruct x
      | |- steps _ (copy_file _ _ _ _ _) => unfold copy_file
      | |- steps _ (backup_level _ _ _ _ _ _ _ _ _) => unfold backup_level
      end ].

Section Runs.

Context {W : Type} (os : OS W).

Lemma steps_perform_backup (R : state W -> state W -> Prop)
    (fuel : nat) (a : args) :
  (forall st, R st st) ->
  (forall x y z, R x y -> R y z -> R x z) ->
  steps R (backup_recursive os fuel (source a) (destination a)
             (flat a) (dry_run a) (verbose a)) ->
  (verbose a = true -> steps R (@print W Stdout (lit "Backup completed."))) ->
  steps R (@print W Stdout
             ("010"%char :: lit "[INFO] Backup interrupted by user.")) ->
  (forall e, steps R (@print W Stderr
     (lit "[ERROR] Unexpected error during backup: " ++ str_of_exn e))) ->
  steps R (perform_backup os fuel a).
Proof.
  intros Hr Ht Hb Hc Hi He st. unfold perform_backup.
  assert (Hm : steps R
            (backup_recursive os fuel (source a) (destination a)
               (flat a) (dry_run a) (verbose a) ;;
             if verbose a then print Stdout (lit "Backup completed.")
             else ret tt)).
  { step. destruct (verbose a); [now apply Hc|now step]. }
  specialize (Hm st).
  destruct ((_ ;; _) st) as [st' [[]|e|c|]]; cbn [fst] in *; auto.
  assert (Hx : forall f line c, steps R (@print W f line) ->
                 steps R (print f line ;; @sys_exit W unit c))
    by (intros; step; step).
  destruct e; (eapply Ht; [exact Hm|]); apply Hx; auto.
Qed.

(** A dry run changes nothing and only prints. *)
Lemma dry_run_steps (fuel : nat) (a : args) :
  dry_run a = true ->
  steps (grows is_print eq) (main os fuel a).
Proof.
  intros Hdry.
  assert (Hr : forall st : state W, grows is_print eq st st)
    by (apply grows_refl; reflexivity).
  assert (Ht : forall x y z : state W, grows is_print eq x y ->
                 grows is_print eq y z -> grows is_print eq x z)
    by (apply grows_trans; intros; congruence).
  assert (Hp : forall f line, steps (grows is_print eq) (@print W f line))
    by (intros; apply grows_emit; [reflexivity|exact I]).
  unfold main, validate_source, prepare_destination.
  rewrite Hdry. cbn [negb].
  prog; try apply Hp.
  apply steps_perform_backup; auto. rewrite Hdry.
  unfold backup_recursive. apply steps_walk; auto. intros root dirs files.
  cbn [negb]. prog; apply Hp.
Qed.

(** C3. In a run with the dry-run flag, whatever the other flags, the
    world the run ends in (or has reached when it is cut short) is the
    world it started in, and all it did was print: it asked for no
    directory and for no copy. *)
Theorem dry_run_never_mutates (fuel : nat) (a : args) (st : state W) :
  dry_run a = true ->
  world (fst (main os fuel a st)) = world st
  /\ exists evs, log (fst (main os fuel a st)) = log st ++ evs
                 /\ Forall is_print evs.
Proof.
  intros Hdry. destruct (dry_run_steps fuel a Hdry st) as [Hw He].
  split; [now symmetry|exact He].
Qed.

(** C6. In a run in flatten mode, every directory the run asks for, at
    any depth of the source tree, is the destination root itself. *)
Theorem flat_makes_only_destination (fuel : nat) (a : args) (st : state W) :
  flat a = true ->
  exists evs, log (fst (main os fuel a st)) = log st ++ evs
              /\ Forall (makes_only (destination a)) evs.
Proof.
  intros Hflat.
  set (R := grows (makes_only (destination a)) (fun _ _ : W => True)).
  assert (Hr : forall st : state W, R st st) by (apply grows_refl; auto).
  assert (Ht : forall x y z : state W, R x y -> R y z -> R x z)
    by (apply grows_trans; auto).
  assert (Hp : forall f line, steps R (@print W f line))
    by (intros; apply grows_emit; [auto|exact I]).
  assert (Hmk : steps R (call (Makedirs (destination a))
                           (fun w => makedirs os w (destination a))))
    by (apply grows_call; [auto|reflexivity]).
  enough (S : steps R (main os fuel a)) by (apply S).
  unfold main, validate_source, prepare_destination.
  prog; try first [apply Hp|apply Hmk].
  apply steps_perform_backup; auto. rewrite Hflat.
  unfold backup_recursive. apply steps_walk; auto. intros root dirs files.
  cbn [target_dir_of]. prog; try first [apply Hp|apply Hmk].
  apply grows_call; [auto|exact I].
Qed.

Lemma startswith_nth (pre p : str) (n : nat) :
  (n < List.length pre)%nat -> nth_error p n <> nth_error pre n ->
  startswith pre p = false.
Proof.
  intros Hn Hne. unfold startswith. apply str_eqb_neq. intros E.
  apply Hne.
  transitivity (nth_error (firstn (List.length pre) p) n); [|now rewrite E].
  rewrite nth_error_firstn. apply Nat.ltb_lt in Hn. now rewrite Hn.
Qed.

(** A dry run that is not verbose prints no line about a directory. *)
Lemma quiet_dry_run_steps (fuel : nat) (a : args) :
  dry_run a = true -> verbose a = false ->
  steps (grows no_ensure_line (fun _ _ : W => True)) (main os fuel a).
Proof.
  intros Hdry Hverb.
  set (R := grows no_ensure_line (fun _ _ : W => True)).
  assert (Hr : forall st : state W, R st st) by (apply grows_refl; auto).
  assert (Ht : forall x y z : state W, R x y -> R y z -> R x z)
    by (apply grows_trans; auto).
  assert (Hp : forall f line (n : nat),
             (n < List.length ensure_prefix)%nat ->
             nth_error line n <> nth_error ensure_prefix n ->
             steps R (@print W f line)).
  { intros f line n Hn Hne. apply grows_emit; [auto|].
    cbn [no_ensure_line]. now apply (startswith_nth _ _ n). }
  unfold main, validate_source, prepare_destination.
  rewrite Hdry, Hverb. cbn [negb].
  prog; try (apply (Hp _ _ 1%nat); [cbv; lia|discriminate]).
  apply steps_perform_backup; auto.
  - rewrite Hdry, Hverb.
    unfold backup_recursive. apply steps_walk; auto. intros root dirs files.
    cbn [negb]. prog.
    destruct (negb _); (apply (Hp _ _ 6%nat); [cbv; lia|discriminate]).
  - rewrite Hverb. discriminate.
  - apply (Hp _ _ 0%nat); [cbv; lia|discriminate].
  - intros e. apply (Hp _ _ 1%nat); [cbv; lia|discriminate].
Qed.

End Runs.

(** ** How runs end *)

Section Ends.

Context {W : Type} (os : OS W).

Lemma proper_ret {A} (a : A) : proper (@ret W A a).
Proof. intros st. exact I. Qed.

Lemma proper_raise {A} (e : exn) : proper (@raise W A e).
Proof. intros st. exact I. Qed.

Lemma proper_gets {A} (f : W -> A) : proper (gets f).
Proof. intros st. exact I. Qed.

Lemma proper_print (f : stream) (line : str) : proper (@print W f line).
Proof. intros st. exact I. Qed.

Lemma proper_call (e : event) (f : W -> W * option exn) : proper (call e f).
Proof.
  intros st. unfold call. now destruct (f (world st)) as [w' [x|]].
Qed.

Lemma proper_bind {A B} (m : M W A) (k : A -> M W B) :
  proper m -> (forall a, proper (k a)) -> proper (bind m k).
Proof.
  intros Hm Hk st. unfold bind. specialize (Hm st).
  destruct (m st) as [st' [a|e|c|]]; cbn [snd] in *; auto. apply Hk.
Qed.

Lemma proper_try {A} (m : M W A) (h : exn -> M W A) :
  proper m -> (forall e, proper (h e)) -> proper (try_except_Exception m h).
Proof.
  intros Hm Hh st. unfold try_except_Exception. specialize (Hm st).
  destruct (m st) as [st' [a|e|c|]]; cbn [snd] in *; auto.
  destruct (is_Exception e); [apply Hh|exact I].
Qed.

Lemma proper_for_each {A} (l : list A) (f : A -> M W unit) :
  (forall x, In x l -> proper (f x)) -> proper (for_each l f).
Proof.
  induction l as [|x l IH]; intros Hf; cbn [for_each].
  - apply proper_ret.
  - apply proper_bind; [apply Hf; now left|].
    intros _. apply IH. intros y Hy. apply Hf. now right.
Qed.

Lemma proper_if {A} (b : bool) (m1 m2 : M W A) :
  proper m1 -> proper m2 -> proper (if b then m1 else m2).
Proof. now destruct b. Qed.

Lemma join_longer (top d : str) :
  d <> [] -> ~ In posixpath.sep d ->
  (List.length top < List.length (posixpath.join top [d]))%nat.
Proof.
  intros Hne Hsep. unfold posixpath.join, posixpath.join1. cbn [fold_left].
  rewrite (startswith_sep_notin d Hsep).
  assert (0 < List.length d)%nat by (destruct d; [congruence|simpl; lia]).
  destruct (null top || endswith_char posixpath.sep top);
    rewrite length_app; simpl; lia.
Qed.

(** On a machine with bounded paths a walk with fuel beyond the bound
    ends, whatever happens to the tree while it is walked. *)
Lemma proper_walk (N : nat)
    (body : str -> list str -> list str -> M W unit) :
  bounded_paths os N ->
  (forall root dirs files, proper (body root dirs files)) ->
  forall fuel top, (N < fuel + List.length top)%nat -> (0 < fuel)%nat ->
  proper (walk os fuel top body).
Proof.
  intros [Hlong Hnames] Hbody.
  induction fuel as [|n IH]; intros top Hfuel Hpos; [lia|].
  cbn [walk]. intros st. unfold bind at 1, gets at 1. cbn [world].
  destruct (scandir os (world st) top) as [[dirs nondirs]|e] eqn:Escan.
  - assert (Hlen : (List.length top < N)%nat).
    { destruct (Nat.lt_ge_cases (List.length top) N) as [L|L]; [exact L|].
      destruct (Hlong (world st) top L) as [msg E]. congruence. }
    revert st Escan.
    enough (Hk : forall ds, (forall d, In d ds -> d <> [] /\ ~ In posixpath.sep d) ->
              proper (for_each ds (fun dirname =>
                let new_path := posixpath.join top [dirname] in
                link <- gets (fun w => path_islink os w new_path) ;;
                if link then ret tt else walk os n new_path body))).
    { intros st Escan.
      assert (P : proper (body top dirs nondirs ;;
                 for_each dirs (fun dirname =>
                   let new_path := posixpath.join top [dirname] in
                   link <- gets (fun w => path_islink os w new_path) ;;
                   if link then ret tt else walk os n new_path body))).
      { apply proper_bind; [apply Hbody|]. intros _. apply Hk.
        intros d Hd. exact (Hnames _ _ _ _ _ Escan Hd). }
      apply P. }
    intros ds Hds. apply proper_for_each. intros d Hd.
    apply proper_bind; [apply proper_gets|]. intros link.
    apply proper_if; [apply proper_ret|].
    destruct (Hds d Hd) as [Hne Hsep].
    pose proof (join_longer top d Hne Hsep) as Hj.
    apply IH; [|lia].
    eapply Nat.le_lt_trans; [|apply Nat.add_lt_mono_l; exact Hj]. lia.
  - destruct e; exact I.
Qed.

Lemma proper_copy_file (src_file dest_file : str) (dry verb : bool) :
  proper (copy_file os src_file dest_file dry verb).
Proof.
  unfold copy_file. apply proper_bind; [apply proper_gets|]. intros target.
  destruct dry; [apply proper_print|].
  apply proper_try; [|intros; apply proper_print].
  apply proper_bind; [apply proper_call|]. intros _.
  apply proper_if; [apply proper_print|apply proper_ret].
Qed.

Lemma proper_backup_level (src_dir dest_dir : str) (fl dry verb : bool)
    (root : str) (dirs files : list str) :
  proper (backup_level os src_dir dest_dir fl dry verb root dirs files).
Proof.
  unfold backup_level. apply proper_bind; [apply proper_gets|].
  intros [rel|]; [|apply proper_raise].
  apply proper_bind.
  - apply proper_if; [apply proper_call|].
    apply proper_if; [apply proper_print|apply proper_ret].
  - intros _. apply proper_for_each. intros; apply proper_copy_file.
Qed.

(** With fuel beyond the longest path, the traversal ends in a return or
    in an exception. *)
Lemma proper_backup_recursive (N fuel : nat) (src_dir dest_dir : str)
    (fl dry verb : bool) :
  bounded_paths os N -> (N < fuel)%nat ->
  proper (backup_recursive os fuel src_dir dest_dir fl dry verb).
Proof.
  intros HB Hfuel. unfold backup_recursive.
  apply (proper_walk N); auto; try lia.
  intros; apply proper_backup_level.
Qed.

End Ends.

Section Main.

Context {W : Type} (os : OS W).

Lemma bind_eq {A B} (m : M W A) (k : A -> M W B) (st : state W) :
  bind m k st
  = match m st with
    | (st', Ret a) => k a st'
    | (st', Raise e) => (st', Raise e)
    | (st', Exit c) => (st', Exit c)
    | (st', OutOfFuel) => (st', OutOfFuel)
    end.
Proof. reflexivity. Qed.

Lemma validate_source_missing (a : args) (st : state W) :
  path_exists os (world st) (source a) = false ->
  validate_source os a st
  = (say st Stderr (lit "[ERROR] Source directory does not exist: " ++ source a),
     Exit 1).
Proof.
  intros H. unfold validate_source, bind, gets. now rewrite H.
Qed.

Lemma validate_source_not_dir (a : args) (st : state W) :
  path_exists os (world st) (source a) = true ->
  path_isdir os (world st) (source a) = false ->
  validate_source os a st
  = (say st Stderr (lit "[ERROR] Source is not a directory: " ++ source a),
     Exit 1).
Proof.
  intros H1 H2. unfold validate_source, bind, gets. cbv beta iota.
  rewrite H1. cbn [negb]. now rewrite H2.
Qed.

Lemma validate_source_ok (a : args) (st : state W) :
  path_exists os (world st) (source a) = true ->
  path_isdir os (world st) (source a) = true ->
  validate_source os a st = (st, Ret tt).
Proof.
  intros H1 H2. unfold validate_source, bind, gets. cbv beta iota.
  rewrite H1. cbn [negb]. now rewrite H2.
Qed.

Lemma prepare_destination_fails (a : args) (st : state W) (e : exn) :
  dry_run a = false ->
  snd (makedirs os (world st) (destination a)) = Some e ->
  is_Exception e = true ->
  snd (prepare_destination os a st) = Exit 1.
Proof.
  intros Hdry Hmk He.
  unfold prepare_destination, try_except_Exception, bind, call.
  rewrite Hdry. cbn [negb].
  destruct (makedirs os (world st) (destination a)) as [w' r].
  cbn [snd] in Hmk. subst r. now rewrite He.
Qed.

Lemma perform_backup_status (fuel : nat) (a : args) (st : state W) :
  exit_status (snd (perform_backup os fuel a st))
  = match snd (backup_recursive os fuel (source a) (destination a)
                 (flat a) (dry_run a) (verbose a) st) with
    | Ret _ => Exited 0
    | Raise KeyboardInterrupt => Exited 130
    | Raise _ => Exited 1
    | Exit c => Exited c
    | OutOfFuel => Still_running
    end.
Proof.
  unfold perform_backup, bind at 1.
  destruct (backup_recursive os fuel (source a) (destination a)
              (flat a) (dry_run a) (verbose a) st) as [st' [[]|e|c|]];
    cbn [snd]; try reflexivity.
  - now destruct (verbose a).
  - now destruct e.
Qed.

Lemma prepare_destination_returns (a : args) (st : state W) :
  dry_run a = true \/ snd (makedirs os (world st) (destination a)) = None ->
  snd (prepare_destination os a st) = Ret tt.
Proof.
  intros H. unfold prepare_destination, try_except_Exception, bind, call.
  destruct (dry_run a); cbn [negb].
  - now destruct (verbose a).
  - destruct H as [H|H]; [discriminate|].
    destruct (makedirs os (world st) (destination a)) as [w' r].
    cbn [snd] in H. subst r. now destruct (verbose a).
Qed.

(** What is no [Exception] passes the handler of the preparation. *)
Lemma prepare_destination_interrupted (a : args) (st : state W) (e : exn) :
  dry_run a = false ->
  snd (makedirs os (world st) (destination a)) = Some e ->
  is_Exception e = false ->
  prepare_destination os a st
  = ({| world := fst (makedirs os (world st) (destination a));
        log := log st ++ [Makedirs (destination a)] |},
     Raise e).
Proof.
  intros Hdry Hmk He.
  unfold prepare_destination, try_except_Exception, bind, call.
  rewrite Hdry. cbn [negb].
  destruct (makedirs os (world st) (destination a)) as [w' r].
  cbn [fst snd] in *. subst r. now rewrite He.
Qed.

(** C7, as the code has it.  The exit code is 1 when the source is missing (and
    then the run has only written its message: nothing of the
    destination is touched), when the source is no directory, when
    making the destination raises an [Exception], and when the traversal
    raises an [Exception]; it is 130 when the traversal is interrupted.
    When making the destination raises what is no [Exception], the
    user's interrupt, nothing catches it: the process dies of it, after
    the one request for the directory, with none of these codes.  In
    every other run, that is, a dry run or one whose destination is
    made, the exit code is 0 when the traversal returns.  With fuel
    beyond the longest path the traversal does end in one of these
    ways. *)
Theorem exit_codes (N fuel : nat) (a : args) (st : state W) :
  bounded_paths os N -> (N < fuel)%nat ->
  (path_exists os (world st) (source a) = false ->
   main os fuel a st
   = (say st Stderr (lit "[ERROR] Source directory does not exist: " ++ source a),
      Exit 1)
   /\ exit_status (snd (main os fuel a st)) = Exited 1)
  /\ (path_exists os (world st) (source a) = true ->
      path_isdir os (world st) (source a) = false ->
      exit_status (snd (main os fuel a st)) = Exited 1)
  /\ (path_exists os (world st) (source a) = true ->
      path_isdir os (world st) (source a) = true ->
      (forall e, dry_run a = false ->
         snd (makedirs os (world st) (destination a)) = Some e ->
         is_Exception e = true ->
         exit_status (snd (main os fuel a st)) = Exited 1)
      /\ (forall e, dry_run a = false ->
          snd (makedirs os (world st) (destination a)) = Some e ->
          is_Exception e = false ->
          log (fst (main os fuel a st))
          = log st ++ [Makedirs (destination a)]
          /\ exit_status (snd (main os fuel a st)) = Killed_by_SIGINT)
      /\ (dry_run a = true
          \/ snd (makedirs os (world st) (destination a)) = None ->
          match snd (backup_recursive os fuel (source a) (destination a)
                       (flat a) (dry_run a) (verbose a)
                       (fst (prepare_destination os a st))) with
          | Ret _ => exit_status (snd (main os fuel a st)) = Exited 0
          | Raise KeyboardInterrupt =>
              exit_status (snd (main os fuel a st)) = Exited 130
          | Raise _ => exit_status (snd (main os fuel a st)) = Exited 1
          | Exit _ | OutOfFuel => False
          end)).
Proof.
  intros HB Hfuel. unfold main. rewrite bind_eq. split; [|split].
  - intros Hex. rewrite (validate_source_missing a st Hex). auto.
  - intros Hex Hdir. now rewrite (validate_source_not_dir a st Hex Hdir).
  - intros Hex Hdir. rewrite (validate_source_ok a st Hex Hdir), bind_eq.
    split; [|split].
    + intros e Hdry Hmk He.
      pose proof (prepare_destination_fails a st e Hdry Hmk He) as E.
      destruct (prepare_destination os a st) as [st1 r]. cbn [snd] in E.
      now subst r.
    + intros e Hdry Hmk He.
      rewrite (prepare_destination_interrupted a st e Hdry Hmk He).
      cbn [fst snd log]. split; [reflexivity|].
      destruct e; [discriminate He..|reflexivity].
    + intros Hok. pose proof (prepare_destination_returns a st Hok) as E.
      destruct (prepare_destination os a st) as [st1 r].
      cbn [fst snd] in *. subst r.
      pose proof (proper_backup_recursive os N fuel (source a) (destination a)
                    (flat a) (dry_run a) (verbose a) HB Hfuel st1) as Hend.
      rewrite perform_backup_status.
      destruct (snd (backup_recursive os fuel (source a) (destination a)
                       (flat a) (dry_run a) (verbose a) st1)) as [[]|e|c|];
        try contradiction; [reflexivity|now destruct e].
Qed.

(** What a level of a verbose dry run says first. *)
Lemma backup_level_announces (src_dir dest_dir : str) (fl : bool)
    (root rel : str) (dirs files : list str) (st : state W) :
  posixpath.relpath (getcwd os (world st)) root src_dir = Some rel ->
  exists evs,
    log (fst (backup_level os src_dir dest_dir fl true true root dirs files st))
    = log st
      ++ Print Stdout (ensure_prefix ++ target_dir_of dest_dir fl rel) :: evs.
Proof.
  intros Hrel. unfold backup_level, bind at 1, gets at 1. rewrite Hrel.
  cbn [negb]. unfold bind at 1, print at 1, emit at 1.
  match goal with |- context [for_each files ?f ?s] =>
    assert (S : steps (grows (fun _ => True) (fun _ _ : W => True))
                  (for_each files f));
    [|destruct (S s) as [_ (evs & L & _)]; exists evs]
  end.
  - apply steps_for_each; [apply grows_refl; auto|apply grows_trans; auto|].
    intros x. unfold copy_file.
    apply steps_bind; [apply grows_trans; auto| |intros target].
    + apply steps_gets. apply grows_refl; auto.
    + apply grows_emit; auto.
  - rewrite L. cbn [log]. rewrite <- app_assoc. reflexivity.
Qed.

End Main.

Lemma commonprefix_refl (l : list str) : posixpath.commonprefix l l = l.
Proof.
  induction l as [|x l IH]; [reflexivity|].
  cbn [posixpath.commonprefix]. now rewrite str_eqb_refl, IH.
Qed.

(** The top of the walk is the directory [.] relative to itself. *)
Lemma relpath_self (cwd p : str) :
  p <> [] -> posixpath.relpath cwd p p = Some (lit ".").
Proof.
  intros Hp. unfold posixpath.relpath.
  replace (null p) with false by (destruct p; [congruence|reflexivity]).
  cbv zeta. rewrite commonprefix_refl, Nat.sub_diag, skipn_all.
  reflexivity.
Qed.

(** C5. In flatten mode the destination directory of a level is the
    destination root, whatever the relative path of the level.  In nested
    mode it is the destination root joined with the relative path, and
    the destination root itself for the relative path [.], which is the
    relative path of the top level. *)
Theorem path_planner (cwd src_dir dest_dir rel : str) :
  target_dir_of dest_dir true rel = dest_dir
  /\ (rel <> lit "." ->
      target_dir_of dest_dir false rel = posixpath.join dest_dir [rel])
  /\ target_dir_of dest_dir false (lit ".") = dest_dir
  /\ (src_dir <> [] ->
      posixpath.relpath cwd src_dir src_dir = Some (lit ".")).
Proof.
  split; [reflexivity|]. split; [|split].
  - intros H. unfold target_dir_of. apply str_eqb_neq in H. now rewrite H.
  - reflexivity.
  - apply relpath_self.
Qed.

(** ** Errors of single copies *)

Section CopyErrors.

Context {W : Type} (os : OS W).

Lemma copy_file_dry (src_file dest_file : str) (verb : bool) (st : state W) :
  copy_file os src_file dest_file true verb st
  = (say st Stdout
       (lit "[DRY] "
        ++ (if negb (str_eqb (unique_name os (world st) dest_file) dest_file)
            then lit "RENAME" else lit "COPY")
        ++ lit ": " ++ src_file ++ lit " -> "
        ++ unique_name os (world st) dest_file),
     Ret tt).
Proof. reflexivity. Qed.

Lemma copy_file_live (src_file dest_file : str) (verb : bool) (st : state W) :
  copy_file os src_file dest_file false verb st
  = let target := unique_name os (world st) dest_file in
    let (w', r) := copy2 os (world st) src_file target in
    let st1 := {| world := w'; log := log st ++ [Copy2 src_file target] |} in
    match r with
    | None =>
        if verb then
          (say st1 Stdout
             (lit "["
              ++ (if negb (str_eqb target dest_file) then lit "RENAMED"
                  else lit "COPIED")
              ++ lit "] " ++ src_file ++ lit " -> " ++ target),
           Ret tt)
        else (st1, Ret tt)
    | Some e =>
        if is_Exception e then
          (say st1 Stderr
             (lit "[ERROR] Failed to copy " ++ src_file ++ lit " -> " ++ target
              ++ lit ": " ++ str_of_exn e),
           Ret tt)
        else (st1, Raise e)
    end.
Proof.
  unfold copy_file, try_except_Exception, bind, gets, call. cbv beta iota zeta.
  destruct (copy2 os (world st) src_file _) as [w' [e|]].
  - reflexivity.
  - now destruct verb.
Qed.

(** A copy that raises an [Exception] is reported on standard error,
    with the source, the target and the message, and [copy_file]
    returns. *)
Lemma copy_file_catches (src_file dest_file : str) (verb : bool)
    (st : state W) (w' : W) (e : exn) :
  copy2 os (world st) src_file (unique_name os (world st) dest_file)
  = (w', Some e) ->
  is_Exception e = true ->
  copy_file os src_file dest_file false verb st
  = (say {| world := w';
            log := log st ++ [Copy2 src_file
                                (unique_name os (world st) dest_file)] |}
       Stderr
       (lit "[ERROR] Failed to copy " ++ src_file ++ lit " -> "
        ++ unique_name os (world st) dest_file ++ lit ": " ++ str_of_exn e),
     Ret tt).
Proof.
  intros Hcp He. rewrite copy_file_live. cbv zeta. now rewrite Hcp, He.
Qed.

(** No [Exception] leaves [copy_file]. *)
Lemma copy_file_raises_no_Exception (src_file dest_file : str)
    (dry verb : bool) (st : state W) (e : exn) :
  snd (copy_file os src_file dest_file dry verb st) = Raise e ->
  is_Exception e = false.
Proof.
  destruct dry; [rewrite copy_file_dry; discriminate|].
  rewrite copy_file_live. cbv zeta.
  destruct (copy2 os (world st) src_file _) as [w' [x|]].
  - destruct (is_Exception x) eqn:Ex; cbn [snd]; [discriminate|].
    intros H. now injection H as <-.
  - destruct verb; discriminate.
Qed.

Lemma walk_S (n : nat) (top : str)
    (body : str -> list str -> list str -> M W unit) (st : state W) :
  walk os (S n) top body st
  = match scandir os (world st) top with
    | inl (dirs, nondirs) =>
        (body top dirs nondirs ;;
         for_each dirs (fun dirname =>
           let new_path := posixpath.join top [dirname] in
           link <- gets (fun w => path_islink os w new_path) ;;
           if link then ret tt else walk os n new_path body)) st
    | inr (OSError _) => (st, Ret tt)
    | inr e => (st, Raise e)
    end.
Proof.
  cbn [walk]. rewrite bind_eq. unfold gets at 1. cbv beta iota.
  destruct (scandir os (world st) top) as [[dirs nondirs]|[]]; reflexivity.
Qed.

End CopyErrors.

Section RunClaims.

Context {W : Type} (os : OS W).

Lemma target_dir_of_dot (dest_dir : str) (fl : bool) :
  target_dir_of dest_dir fl (lit ".") = dest_dir.
Proof. now destruct fl. Qed.

(** C9, as the code has it.  In a dry run the intent to ensure a
    directory is reported when the verbose flag is set, and only then:
    with it every level of the traversal first prints its line, which at
    the top level names the destination root; without it the run prints
    no such line at all. *)
Theorem dry_run_directory_reports (fuel : nat) (a : args) (st : state W) :
  dry_run a = true ->
  (verbose a = true ->
     forall root rel dirs files st1,
       posixpath.relpath (getcwd os (world st1)) root (source a) = Some rel ->
       exists evs,
         log (fst (backup_level os (source a) (destination a) (flat a)
                     (dry_run a) (verbose a) root dirs files st1))
         = log st1
           ++ Print Stdout
                (ensure_prefix ++ target_dir_of (destination a) (flat a) rel)
              :: evs)
  /\ (source a <> [] ->
      forall cwd, posixpath.relpath cwd (source a) (source a) = Some (lit ".")
                  /\ target_dir_of (destination a) (flat a) (lit ".")
                     = destination a)
  /\ (verbose a = false ->
      exists evs, log (fst (main os fuel a st)) = log st ++ evs
                  /\ Forall no_ensure_line evs).
Proof.
  intros Hdry. split; [|split].
  - intros Hverb root rel dirs files st1 Hrel. rewrite Hdry, Hverb.
    now apply backup_level_announces.
  - intros Hsrc cwd. split; [now apply relpath_self|apply target_dir_of_dot].
  - intros Hverb. apply (quiet_dry_run_steps os fuel a Hdry Hverb st).
Qed.

End RunClaims.

(** ** Runs side by side *)

Ltac view :=
  let V := fresh "V" in
  intros ? ? V; destruct V as [Ve Vd Vl Vc Vu Vs];
  first [apply Ve | apply Vd | apply Vl | apply Vs | now rewrite Vc].

Section Alike.

Context {W W' : Type} (os : OS W) (os' : OS W').
Variable T : state W -> state W' -> Prop.

Lemma alike_ret {A} (a : A) : alike T (ret a) (ret a).
Proof. intros st st' HT. now split. Qed.

Lemma alike_raise {A} (e : exn) : alike T (@raise W A e) (raise e).
Proof. intros st st' HT. now split. Qed.

Lemma alike_sys_exit {A} (c : Z) : alike T (@sys_exit W A c) (sys_exit c).
Proof. intros st st' HT. now split. Qed.

Lemma alike_out_of_fuel {A} : alike T (@out_of_fuel W A) out_of_fuel.
Proof. intros st st' HT. now split. Qed.

Lemma alike_bind {A B} (m : M W A) (m' : M W' A)
    (k : A -> M W B) (k' : A -> M W' B) :
  alike T m m' -> (forall a, alike T (k a) (k' a)) ->
  alike T (bind m k) (bind m' k').
Proof.
  intros Hm Hk st st' HT. rewrite !bind_eq. destruct (Hm st st' HT) as [T1 E].
  destruct (m st) as [s1 r1], (m' st') as [s1' r1']. cbn [fst snd] in *.
  subst r1'. destruct r1; [now apply Hk|now split..].
Qed.

Lemma alike_try {A} (m : M W A) (m' : M W' A)
    (h : exn -> M W A) (h' : exn -> M W' A) :
  alike T m m' -> (forall e, alike T (h e) (h' e)) ->
  alike T (try_except_Exception m h) (try_except_Exception m' h').
Proof.
  intros Hm Hh st st' HT. unfold try_except_Exception.
  destruct (Hm st st' HT) as [T1 E].
  destruct (m st) as [s1 r1], (m' st') as [s1' r1']. cbn [fst snd] in *.
  subst r1'. destruct r1; try (now split).
  destruct (is_Exception e); [now apply Hh|now split].
Qed.

Lemma alike_if {A} (b : bool) (m1 m2 : M W A) (m1' m2' : M W' A) :
  alike T m1 m1' -> alike T m2 m2' ->
  alike T (if b then m1 else m2) (if b then m1' else m2').
Proof. now destruct b. Qed.

Lemma alike_for_each {A} (l : list A) (f : A -> M W unit)
    (f' : A -> M W' unit) :
  (forall x, alike T (f x) (f' x)) -> alike T (for_each l f) (for_each l f').
Proof.
  intros Hf. induction l as [|x l IH]; cbn [for_each].
  - apply alike_ret.
  - apply alike_bind; auto.
Qed.

Lemma same_view_unique_name (w : W) (w' : W') (p : str) :
  same_view os os' w w' -> unique_name os w p = unique_name os' w' p.
Proof.
  intros [Ve Vd Vl Vc Vu Vs]. unfold unique_name. now rewrite Ve, Vu.
Qed.

(** Related states show the script the same, and stay related when both
    runs print the same line. *)
Hypothesis T_view :
  forall st st', T st st' -> same_view os os' (world st) (world st').
Hypothesis T_say :
  forall st st' f line, T st st' -> T (say st f line) (say st' f line).

Lemma alike_gets {A} (f : W -> A) (f' : W' -> A) :
  (forall w w', same_view os os' w w' -> f w = f' w') ->
  alike T (gets f) (gets f').
Proof.
  intros H st st' HT. split; [exact HT|]. unfold gets. cbn [snd].
  now rewrite (H _ _ (T_view _ _ HT)).
Qed.

Lemma alike_print (f : stream) (line : str) :
  alike T (print f line) (print f line).
Proof.
  intros st st' HT. split; [exact (T_say _ _ f line HT)|reflexivity].
Qed.

(** The two runs of a request for a directory, and of the copy of a
    file, go the same way. *)
Hypothesis T_makedirs : forall p,
  alike T (call (Makedirs p) (fun w => makedirs os w p))
          (call (Makedirs p) (fun w => makedirs os' w p)).
Hypothesis T_copy_file : forall src_file dest_file dry verb,
  alike T (copy_file os src_file dest_file dry verb)
          (copy_file os' src_file dest_file dry verb).

Lemma alike_backup_level (src_dir dest_dir : str) (fl dry verb : bool)
    (root : str) (dirs files : list str) :
  alike T (backup_level os src_dir dest_dir fl dry verb root dirs files)
          (backup_level os' src_dir dest_dir fl dry verb root dirs files).
Proof.
  unfold backup_level.
  apply alike_bind; [apply alike_gets; view|].
  intros [rel|]; [|apply alike_raise].
  apply alike_bind.
  - apply alike_if; [apply T_makedirs|].
    apply alike_if; [apply alike_print|apply alike_ret].
  - intros _. apply alike_for_each. intros; apply T_copy_file.
Qed.

Lemma alike_walk (body : str -> list str -> list str -> M W unit)
    (body' : str -> list str -> list str -> M W' unit) :
  (forall root dirs files,
     alike T (body root dirs files) (body' root dirs files)) ->
  forall fuel top, alike T (walk os fuel top body) (walk os' fuel top body').
Proof.
  intros Hbody. induction fuel as [|n IH]; intros top; cbn [walk].
  - apply alike_out_of_fuel.
  - apply alike_bind; [apply alike_gets; view|].
    intros [[dirs nondirs]|e].
    + apply alike_bind; [apply Hbody|]. intros _.
      apply alike_for_each. intros d.
      apply alike_bind; [apply alike_gets; view|].
      intros link. apply alike_if; [apply alike_ret|apply IH].
    + destruct e; [apply alike_ret|apply alike_raise|apply alike_raise].
Qed.

Lemma alike_perform_backup (fuel : nat) (a : args) :
  alike T (perform_backup os fuel a) (perform_backup os' fuel a).
Proof.
  intros st st' HT. unfold perform_backup.
  assert (S : alike T
    (backup_recursive os fuel (source a) (destination a)
       (flat a) (dry_run a) (verbose a) ;;
     if verbose a then print Stdout (lit "Backup completed.") else ret tt)
    (backup_recursive os' fuel (source a) (destination a)
       (flat a) (dry_run a) (verbose a) ;;
     if verbose a then print Stdout (lit "Backup completed.") else ret tt)).
  { apply alike_bind.
    - unfold backup_recursive. apply alike_walk.
      intros; apply alike_backup_level.
    - intros _. apply alike_if; [apply alike_print|apply alike_ret]. }
  destruct (S st st' HT) as [T1 E].
  destruct ((_ ;; _) st) as [s1 r1], ((_ ;; _) st') as [s1' r1'].
  cbn [fst snd] in *. subst r1'.
  assert (Hx : forall f line c,
            alike T (print f line ;; @sys_exit W unit c)
                    (print f line ;; @sys_exit W' unit c))
    by (intros; apply alike_bind;
        [apply alike_print|intros; apply alike_sys_exit]).
  destruct r1 as [[]|e|c|]; try (now split).
  destruct e; now apply Hx.
Qed.

Lemma alike_main (fuel : nat) (a : args) :
  alike T (main os fuel a) (main os' fuel a).
Proof.
  unfold main. apply alike_bind; [|intros _; apply alike_bind].
  - unfold validate_source.
    apply alike_bind; [apply alike_gets; view|]. intros ex.
    apply alike_if.
    + apply alike_bind; [apply alike_print|intros; apply alike_sys_exit].
    + apply alike_bind; [apply alike_gets; view|]. intros isd.
      apply alike_if; [|apply alike_ret].
      apply alike_bind; [apply alike_print|intros; apply alike_sys_exit].
  - unfold prepare_destination. apply alike_try.
    + apply alike_bind.
      * apply alike_if; [apply T_makedirs|apply alike_ret].
      * intros _. apply alike_if; [apply alike_print|apply alike_ret].
    + intros e. apply alike_bind; [apply alike_print|intros; apply alike_sys_exit].
  - intros _. apply alike_perform_backup.
Qed.

End Alike.

(** ** The run and its record *)

Section Recorded.

Context {W : Type} (os : OS W).

Lemma tracks_view (st : state W) (st' : state (W * list outcome)) :
  tracks st st' -> same_view os (recording os) (world st) (world st').
Proof. intros [Tw _]. rewrite Tw. now split. Qed.

Lemma tracks_say (st : state W) (st' : state (W * list outcome))
    (f : stream) (line : str) :
  tracks st st' -> tracks (say st f line) (say st' f line).
Proof.
  intros [Tw Tl]. split; cbn [say world log]; [exact Tw|now rewrite Tl].
Qed.

Lemma tracks_makedirs (p : str) :
  alike tracks (call (Makedirs p) (fun w => makedirs os w p))
               (call (Makedirs p) (fun w => makedirs (recording os) w p)).
Proof.
  intros st st' [Tw Tl]. unfold call. cbn [makedirs recording].
  rewrite <- Tw.
  destruct (makedirs os (world st) p) as [w1 [e|]]; cbn [fst snd];
    (split; [split; cbn [world log fst]; [reflexivity|now rewrite Tl]
            |reflexivity]).
Qed.

Lemma tracks_copy2 (s t : str) :
  alike tracks (call (Copy2 s t) (fun w => copy2 os w s t))
               (call (Copy2 s t) (fun w => copy2 (recording os) w s t)).
Proof.
  intros st st' [Tw Tl]. unfold call. cbn [copy2 recording].
  rewrite <- Tw.
  destruct (copy2 os (world st) s t) as [w1 [e|]]; cbn [fst snd];
    (split; [split; cbn [world log fst]; [reflexivity|now rewrite Tl]
            |reflexivity]).
Qed.

Lemma tracks_copy_file (src_file dest_file : str) (dry verb : bool) :
  alike tracks (copy_file os src_file dest_file dry verb)
               (copy_file (recording os) src_file dest_file dry verb).
Proof.
  assert (Hp : forall f line,
            alike tracks (@print W f line) (print f line))
    by (intros; apply alike_print; exact tracks_say).
  unfold copy_file.
  apply alike_bind.
  { eapply alike_gets; [exact tracks_view|].
    intros w w' V. now apply same_view_unique_name. }
  intros target.
  destruct dry; [apply Hp|].
  apply alike_try; [|intros e; apply Hp].
  apply alike_bind; [apply tracks_copy2|]. intros _.
  apply alike_if; [apply Hp|apply alike_ret].
Qed.

Lemma tracks_recorded (st : state W) : tracks st (recorded st).
Proof. now split. Qed.

(** The run on the recording machine is the run on the machine. *)
Lemma recorded_run (fuel : nat) (a : args) (st : state W) :
  log (fst (main os fuel a st))
  = log (fst (main (recording os) fuel a (recorded st)))
  /\ snd (main os fuel a st) = snd (main (recording os) fuel a (recorded st)).
Proof.
  assert (S : alike tracks (main os fuel a) (main (recording os) fuel a)).
  { eapply alike_main;
      first [exact tracks_view | exact tracks_say
            | exact tracks_makedirs | exact tracks_copy_file]. }
  destruct (S st (recorded st) (tracks_recorded st)) as [[_ Tl] E].
  now split.
Qed.

End Recorded.

Section Equations.

Context {W : Type} (os : OS W).

Lemma backup_level_eq (src_dir dest_dir : str) (fl dry verb : bool)
    (root : str) (dirs files : list str) (st : state W) :
  backup_level os src_dir dest_dir fl dry verb root dirs files st
  = match posixpath.relpath (getcwd os (world st)) root src_dir with
    | None => (st, Raise (ValueError (lit "no path specified")))
    | Some rel =>
        ((if negb dry then
            call (Makedirs (target_dir_of dest_dir fl rel))
              (fun w => makedirs os w (target_dir_of dest_dir fl rel))
          else if verb then
            print Stdout
              (lit "[DRY] Ensure directory exists: "
               ++ target_dir_of dest_dir fl rel)
          else ret tt) ;;
         for_each files (fun fname =>
           copy_file os (posixpath.join root [fname])
             (posixpath.join (target_dir_of dest_dir fl rel) [fname])
             dry verb)) st
    end.
Proof.
  unfold backup_level. rewrite bind_eq. unfold gets at 1. cbv beta iota.
  now destruct (posixpath.relpath (getcwd os (world st)) root src_dir).
Qed.

End Equations.

Section Safe.

Context {W : Type} (os : OS W).

Lemma safe_ret {A} (a : A) : safe (@ret (W * list outcome) A a).
Proof. intros st _. now exists a. Qed.

Lemma safe_gets {A} (f : W * list outcome -> A) : safe (gets f).
Proof. intros st _. now eexists. Qed.

Lemma safe_print (f : stream) (line : str) :
  safe (@print (W * list outcome) f line).
Proof. intros st _. now exists tt. Qed.

Lemma safe_bind {A B} (m : M (W * list outcome) A)
    (k : A -> M (W * list outcome) B) :
  safe m -> (forall a, safe (k a)) -> safe (bind m k).
Proof.
  intros Hm Hk st. rewrite bind_eq. specialize (Hm st).
  destruct (m st) as [st' r]. cbn [fst snd] in Hm.
  destruct r as [a|e|c|]; [apply Hk|..]; intros H;
    destruct (Hm H) as [a E]; discriminate E.
Qed.

Lemma safe_if {A} (b : bool) (m1 m2 : M (W * list outcome) A) :
  safe m1 -> safe m2 -> safe (if b then m1 else m2).
Proof. now destruct b. Qed.

Lemma safe_for_each {A} (l : list A) (f : A -> M (W * list outcome) unit) :
  (forall x, In x l -> safe (f x)) -> safe (for_each l f).
Proof.
  induction l as [|x l IH]; intros Hf; cbn [for_each].
  - apply safe_ret.
  - apply safe_bind; [apply Hf; now left|].
    intros _. apply IH. intros y Hy. apply Hf. now right.
Qed.

Lemma benign_last (l : list outcome) (o : outcome) :
  Forall benign (l ++ [o]) -> benign o.
Proof.
  intros H. apply Forall_app in H. destruct H as [_ H]. now inversion H.
Qed.

Lemma safe_makedirs (p : str) :
  safe (call (Makedirs p) (fun w => makedirs (recording os) w p)).
Proof.
  intros st. unfold call. cbn [makedirs recording].
  destruct (makedirs os (fst (world st)) p) as [w1 [e|]]; cbn [fst snd world].
  - intros H. apply benign_last in H. discriminate H.
  - intros _. now exists tt.
Qed.

Lemma safe_copy_file (src_file dest_file : str) (dry verb : bool) :
  safe (copy_file (recording os) src_file dest_file dry verb).
Proof.
  intros st. destruct dry; [rewrite copy_file_dry; intros _; now exists tt|].
  rewrite copy_file_live. cbv zeta. cbn [copy2 recording].
  destruct (copy2 os (fst (world st)) src_file _) as [w1 [e|]].
  - destruct (is_Exception e) eqn:Ee; cbn [fst snd world say].
    + intros _. now exists tt.
    + intros H. apply benign_last in H. cbn [benign] in H. congruence.
  - destruct verb; intros _; now exists tt.
Qed.

Lemma safe_backup_level (src_dir dest_dir : str) (fl dry verb : bool)
    (root : str) (dirs files : list str) :
  root <> [] ->
  safe (backup_level (recording os) src_dir dest_dir fl dry verb
          root dirs files).
Proof.
  intros Hroot.
  assert (Hr : forall cwd, posixpath.relpath cwd root src_dir <> None).
  { intros cwd. unfold posixpath.relpath.
    replace (null root) with false by (destruct root; [congruence|reflexivity]).
    cbv zeta. now destruct (_ ++ _). }
  intros st. rewrite backup_level_eq.
  destruct (posixpath.relpath (getcwd (recording os) (world st)) root src_dir)
    as [rel|] eqn:Er; [|now destruct (Hr _ Er)].
  match goal with |- Forall benign (snd (world (fst (?m st)))) -> _ =>
    enough (S : safe m) by exact (S st)
  end.
  apply safe_bind.
  - apply safe_if; [apply safe_makedirs|].
    apply safe_if; [apply safe_print|apply safe_ret].
  - intros _. apply safe_for_each. intros; apply safe_copy_file.
Qed.

Lemma safe_walk (N : nat) (src_dir dest_dir : str) (fl dry verb : bool) :
  bounded_paths os N ->
  (forall w p e, scandir os w p = inr e -> exists msg, e = OSError msg) ->
  forall fuel top,
    top <> [] -> (N < fuel + List.length top)%nat -> (0 < fuel)%nat ->
    safe (walk (recording os) fuel top
            (backup_level (recording os) src_dir dest_dir fl dry verb)).
Proof.
  intros [Hlong Hnames] Hscan.
  induction fuel as [|n IH]; intros top Htop Hfuel Hpos; [lia|].
  intros st. rewrite walk_S. cbn [scandir recording].
  destruct (scandir os (fst (world st)) top) as [[dirs nondirs]|e] eqn:Escan.
  - assert (Hlen : (List.length top < N)%nat).
    { destruct (Nat.lt_ge_cases (List.length top) N) as [L|L]; [exact L|].
      destruct (Hlong (fst (world st)) top L) as [msg E]. congruence. }
    match goal with |- Forall benign (snd (world (fst (?m st)))) -> _ =>
      enough (S : safe m) by exact (S st)
    end.
    apply safe_bind; [now apply safe_backup_level|]. intros _.
    apply safe_for_each. intros d Hd.
    apply safe_bind; [apply safe_gets|]. intros link.
    apply safe_if; [apply safe_ret|].
    destruct (Hnames _ _ _ _ _ Escan Hd) as [Hne Hsep].
    pose proof (join_longer top d Hne Hsep) as Hj.
    apply IH; [|eapply Nat.le_lt_trans;
                 [|apply Nat.add_lt_mono_l; exact Hj]; lia|lia].
    intros E. rewrite E in Hj. simpl in Hj. lia.
  - destruct (Hscan _ _ _ Escan) as [msg ->]. intros _. now exists tt.
Qed.

Lemma safe_try {A} (m : M (W * list outcome) A)
    (h : exn -> M (W * list outcome) A) :
  safe m ->
  (forall e st, snd (world (fst (h e st))) = snd (world st)) ->
  safe (try_except_Exception m h).
Proof.
  intros Hm Hh st. unfold try_except_Exception. specialize (Hm st).
  destruct (m st) as [st1 r]. cbn [fst snd] in Hm.
  destruct r as [x|e|c|]; cbv beta iota; cbn [fst snd]; try exact Hm.
  destruct (is_Exception e); [rewrite Hh|]; intros H;
    destruct (Hm H) as [x E]; discriminate E.
Qed.

Lemma safe_prepare_destination (a : args) :
  safe (prepare_destination (recording os) a).
Proof.
  unfold prepare_destination. apply safe_try; [|reflexivity].
  apply safe_bind.
  - apply safe_if; [apply safe_makedirs|apply safe_ret].
  - intros _. apply safe_if; [apply safe_print|apply safe_ret].
Qed.

Lemma safe_perform_backup (N fuel : nat) (a : args) :
  bounded_paths os N ->
  (forall w p e, scandir os w p = inr e -> exists msg, e = OSError msg) ->
  source a <> [] -> (N < fuel)%nat ->
  safe (perform_backup (recording os) fuel a).
Proof.
  intros HN Hscan Hsrc Hfuel st. unfold perform_backup.
  assert (S : safe
    (backup_recursive (recording os) fuel (source a) (destination a)
       (flat a) (dry_run a) (verbose a) ;;
     if verbose a then print Stdout (lit "Backup completed.") else ret tt)).
  { apply safe_bind.
    - unfold backup_recursive. apply safe_walk with (N := N); auto; lia.
    - intros _. apply safe_if; [apply safe_print|apply safe_ret]. }
  specialize (S st). destruct ((_ ;; _) st) as [st1 r]. cbn [fst snd] in S.
  destruct r as [[]|e|c|]; cbv beta iota; cbn [fst snd]; try exact S.
  destruct e; intros H; destruct (S H) as [x E]; discriminate E.
Qed.

(** A run from a source that is a directory returns when its record is
    benign. *)
Lemma safe_main (N fuel : nat) (a : args) (st : state W) :
  bounded_paths os N -> (N < fuel)%nat ->
  (forall w p e, scandir os w p = inr e -> exists msg, e = OSError msg) ->
  path_exists os (world st) (source a) = true ->
  path_isdir os (world st) (source a) = true ->
  source a <> [] ->
  Forall benign (outcomes os fuel a st) ->
  snd (main os fuel a st) = Ret tt.
Proof.
  intros HN Hfuel Hscan Hex Hdir Hsrc.
  destruct (recorded_run os fuel a st) as [_ ->].
  unfold outcomes, main. rewrite bind_eq.
  rewrite (validate_source_ok (recording os) a (recorded st) Hex Hdir).
  match goal with |- Forall benign (snd (world (fst (?m _)))) -> _ =>
    assert (S : safe m)
  end.
  { apply safe_bind; [apply safe_prepare_destination|]. intros _.
    now apply safe_perform_backup with (N := N). }
  intros H. destruct (S _ H) as [[] E]. exact E.
Qed.

End Safe.

(** ** Failed copies are reported *)

Section Reporting.

Context {W : Type} (os : OS W).

Lemma reported_nil (evs : list event) : reported evs [].
Proof. intros s t e []. Qed.

Lemma reported_app (evs1 evs2 : list event) (outs1 outs2 : list outcome) :
  reported evs1 outs1 -> reported evs2 outs2 ->
  reported (evs1 ++ evs2) (outs1 ++ outs2).
Proof.
  intros H1 H2 s t e Hin He. apply in_app_or in Hin.
  destruct Hin as [Hin|Hin].
  - destruct (H1 s t e Hin He) as (b & af & ->).
    exists b, (af ++ evs2). now rewrite <- app_assoc.
  - destruct (H2 s t e Hin He) as (b & af & ->).
    exists (evs1 ++ b), af. now rewrite app_assoc.
Qed.

Lemma reporting_refl (st : state (W * list outcome)) : reporting st st.
Proof.
  exists [], []. rewrite !app_nil_r. repeat split. apply reported_nil.
Qed.

Lemma reporting_trans (x y z : state (W * list outcome)) :
  reporting x y -> reporting y z -> reporting x z.
Proof.
  intros (e1 & o1 & L1 & O1 & R1) (e2 & o2 & L2 & O2 & R2).
  exists (e1 ++ e2), (o1 ++ o2). split; [|split].
  - now rewrite L2, L1, app_assoc.
  - now rewrite O2, O1, app_assoc.
  - now apply reported_app.
Qed.

Lemma reporting_print (f : stream) (line : str) :
  steps reporting (@print (W * list outcome) f line).
Proof.
  intros st. exists [Print f line], []. rewrite app_nil_r.
  repeat split. apply reported_nil.
Qed.

Lemma reporting_makedirs (p : str) :
  steps reporting (call (Makedirs p) (fun w => makedirs (recording os) w p)).
Proof.
  intros st. unfold call. cbn [makedirs recording].
  destruct (makedirs os (fst (world st)) p) as [w1 r].
  exists [Makedirs p], [Made p r].
  destruct r; cbn [fst snd world log]; repeat split;
    intros s t e' [H|[]]; discriminate H.
Qed.

Lemma reporting_copy_file (src_file dest_file : str) (dry verb : bool) :
  steps reporting (copy_file (recording os) src_file dest_file dry verb).
Proof.
  intros st. destruct dry; [rewrite copy_file_dry; apply reporting_print|].
  rewrite copy_file_live. cbv zeta. cbn [copy2 recording].
  set (target := unique_name (recording os) (world st) dest_file).
  destruct (copy2 os (fst (world st)) src_file target) as [w1 [e|]].
  - destruct (is_Exception e) eqn:Ee; cbn [fst].
    + exists [Copy2 src_file target;
              Print Stderr (failed_copy_line src_file target e)],
             [Copied src_file target (Some e)].
      split; [|split].
      * cbn [say log]. now rewrite <- app_assoc.
      * reflexivity.
      * intros s t e' [H|[]] _. injection H as <- <- <-. now exists [], [].
    + exists [Copy2 src_file target], [Copied src_file target (Some e)].
      repeat split. intros s t e' [H|[]] He'. injection H as <- <- <-.
      congruence.
  - destruct verb; cbn [fst].
    + eexists [Copy2 src_file target; Print Stdout _],
              [Copied src_file target None].
      split; [|split].
      * cbn [say log]. now rewrite <- app_assoc.
      * reflexivity.
      * intros s t e' [H|[]]. discriminate H.
    + exists [Copy2 src_file target], [Copied src_file target None].
      repeat split. intros s t e' [H|[]]. discriminate H.
Qed.

Lemma reporting_main (fuel : nat) (a : args) :
  steps reporting (main (recording os) fuel a).
Proof.
  assert (Hr := reporting_refl).
  assert (Ht := reporting_trans).
  assert (Hp := reporting_print).
  unfold main, validate_source, prepare_destination.
  prog; try apply Hp; try apply reporting_makedirs.
  apply steps_perform_backup; auto.
  unfold backup_recursive. apply steps_walk; auto. intros root dirs files.
  unfold backup_level.
  repeat first
    [ match goal with
      | |- steps _ (copy_file _ _ _ _ _) => apply reporting_copy_file
      end
    | step
    | match goal with
      | |- steps _ (match ?x with _ => _ end) => destruct x
      end ];
    first [apply reporting_makedirs | apply Hp].
Qed.

End Reporting.

(** ** A failed copy does not change the course of the run *)

Section Forgiving.

Context {W : Type} (os : OS W).

Lemma requests_app (l l' : list event) :
  requests (l ++ l') = requests l ++ requests l'.
Proof. apply filter_app. Qed.

Lemma same_course_refl (st : state W) : same_course st st.
Proof. now split. Qed.

Lemma same_course_view (st st' : state W) :
  same_course st st' -> same_view os (forgiving os) (world st) (world st').
Proof. intros [Tw _]. rewrite Tw. now split. Qed.

Lemma same_course_say_l (st st' : state W) (f : stream) (line : str) :
  same_course st st' -> same_course (say st f line) st'.
Proof.
  intros [Tw Tl]. split; cbn [say world log]; [exact Tw|].
  rewrite requests_app, Tl. apply app_nil_r.
Qed.

Lemma same_course_say_r (st st' : state W) (f : stream) (line : str) :
  same_course st st' -> same_course st (say st' f line).
Proof.
  intros [Tw Tl]. split; cbn [say world log]; [exact Tw|].
  rewrite requests_app, Tl. symmetry. apply app_nil_r.
Qed.

Lemma same_course_say (st st' : state W) (f : stream) (line : str) :
  same_course st st' -> same_course (say st f line) (say st' f line).
Proof. intros H. now apply same_course_say_l, same_course_say_r. Qed.

Lemma same_course_call (st st' : state W) (w1 : W) (e : event) :
  same_course st st' ->
  same_course {| world := w1; log := log st ++ [e] |}
              {| world := w1; log := log st' ++ [e] |}.
Proof.
  intros [_ Tl]. split; cbn [world log]; [reflexivity|].
  now rewrite !requests_app, Tl.
Qed.

Lemma forgiving_makedirs (p : str) :
  alike same_course
    (call (Makedirs p) (fun w => makedirs os w p))
    (call (Makedirs p) (fun w => makedirs (forgiving os) w p)).
Proof.
  intros st st' HT. unfold call. cbn [makedirs forgiving].
  destruct HT as [Tw Tl]. rewrite <- Tw.
  destruct (makedirs os (world st) p) as [w1 [e|]]; cbn [fst snd];
    (split; [now apply same_course_call|reflexivity]).
Qed.

Lemma forgiving_copy_file (src_file dest_file : str) (dry verb : bool) :
  alike same_course
    (copy_file os src_file dest_file dry verb)
    (copy_file (forgiving os) src_file dest_file dry verb).
Proof.
  intros st st' HT. destruct dry.
  - rewrite !copy_file_dry. cbn [fst snd]. split; [|reflexivity].
    now apply same_course_say_l, same_course_say_r.
  - rewrite !copy_file_live. cbv zeta. cbn [copy2 forgiving].
    rewrite <- (same_view_unique_name os (forgiving os) _ _ dest_file
                  (same_course_view _ _ HT)).
    set (target := unique_name os (world st) dest_file).
    pose proof HT as [Tw _]. rewrite <- Tw.
    destruct (copy2 os (world st) src_file target) as [w1 [e|]].
    + destruct (is_Exception e) eqn:Ee.
      * destruct verb; cbn [fst snd]; (split; [|reflexivity]).
        -- now apply same_course_say_l, same_course_say_r, same_course_call.
        -- now apply same_course_say_l, same_course_call.
      * rewrite Ee. cbn [fst snd]. split; [|reflexivity].
        now apply same_course_call.
    + destruct verb; cbn [fst snd]; (split; [|reflexivity]).
      * now apply same_course_say, same_course_call.
      * now apply same_course_call.
Qed.

Lemma forgiving_main (fuel : nat) (a : args) :
  alike same_course (main os fuel a) (main (forgiving os) fuel a).
Proof.
  eapply alike_main;
    first [exact same_course_view | exact same_course_say
          | exact forgiving_makedirs | exact forgiving_copy_file].
Qed.


End Forgiving.

(** ** The tree machine *)

Module TreeFSFacts.

Import TreeFS.

Lemma valid_name_ok (n : str) :
  valid_name n = true -> n <> [] /\ ~ In posixpath.sep n.
Proof.
  unfold valid_name. intros H. apply andb_true_iff in H. destruct H as [H1 H2].
  split.
  - intros ->. discriminate.
  - intros Hin. apply negb_true_iff in H2.
    assert (E : existsb (fun c => Ascii.eqb c posixpath.sep) n = true).
    { apply existsb_exists. exists posixpath.sep. split; [exact Hin|].
      apply Ascii.eqb_refl. }
    congruence.
Qed.

(** The tree machine has bounded paths. *)
Lemma bounded : bounded_paths os PATH_MAX.
Proof.
  split.
  - intros w p Hp. cbn [scandir os]. unfold listdir.
    apply Nat.leb_le in Hp. rewrite Hp. eauto.
  - intros w p dirs files d Hscan Hd. cbn [scandir os] in Hscan.
    unfold listdir in Hscan.
    destruct (PATH_MAX <=? List.length p)%nat; [discriminate|].
    destruct (stat w p) as [[data|ents]|]; try discriminate.
    injection Hscan as <- _.
    apply in_map_iff in Hd. destruct Hd as ([k v] & <- & Hin).
    apply filter_In in Hin. destruct Hin as [Hin _].
    apply filter_In in Hin. destruct Hin as [_ Hv].
    now apply valid_name_ok.
Qed.

Lemma scandir_OSError (w : machine) (p : str) (e : exn) :
  scandir os w p = inr e -> exists msg, e = OSError msg.
Proof.
  cbn [scandir os]. unfold listdir.
  destruct (PATH_MAX <=? List.length p)%nat.
  - intros H. injection H as <-. eauto.
  - destruct (stat w p) as [[data|ents]|]; intros H;
      try discriminate; injection H as <-; eauto.
Qed.

End TreeFSFacts.

(** ** Runs on the tree machine *)

Section Witnesses.

Import TreeFS Scenario.

Lemma clock_valid : valid_datetime clock.
Proof. unfold valid_datetime, clock; cbn; lia. Qed.

Lemma unique_name_spec_witness :
  posixpath.basename (unique_name os twice_taken (lit "/dst/a.txt"))
  = lit "a" ++ lit "_" ++ strftime clock ++ lit ".txt".
Proof.
  destruct (unique_name_spec os twice_taken (lit "/dst/a.txt")) as [_ H].
  - unfold valid_datetime; cbn; lia.
  - assert (Hex : path_exists os twice_taken (lit "/dst/a.txt") = true)
      by (vm_compute; reflexivity).
    destruct (H Hex) as (_ & _ & Hb & _). exact Hb.
Defined.

Lemma unique_name_no_extension_witness :
  posixpath.basename (unique_name os hidden_taken (lit "/dst/.env"))
  = lit ".env_20260102-030405".
Proof.
  destruct (unique_name_no_extension os hidden_taken (lit "/dst/.env")
              1 (lit "env")) as (_ & _ & H).
  - vm_compute; reflexivity.
  - vm_compute; reflexivity.
  - cbn. intros [H|[H|[H|[]]]]; discriminate H.
  - exact H.
Defined.

Lemma dry_run_never_mutates_witness :
  world (fst (main os 5 (request false true true) (start two_levels)))
  = two_levels.
Proof.
  exact (proj1 (dry_run_never_mutates os 5 (request false true true)
                  (start two_levels) eq_refl)).
Defined.

Lemma flat_makes_only_destination_witness :
  exists evs,
    log (fst (main os 5 (request true false true) (start two_levels)))
    = [] ++ evs
    /\ Forall (makes_only (lit "/dst")) evs.
Proof.
  exact (flat_makes_only_destination os 5 (request true false true)
           (start two_levels) eq_refl).
Defined.

Lemma path_planner_witness :
  target_dir_of (lit "/dst") false (lit "sub") = lit "/dst/sub"
  /\ posixpath.relpath (lit "/") (lit "/src") (lit "/src") = Some (lit ".").
Proof.
  destruct (path_planner (lit "/") (lit "/src") (lit "/dst") (lit "sub"))
    as (_ & H1 & _ & H2).
  split; [apply H1; discriminate|apply H2; discriminate].
Defined.

Lemma exit_codes_witness :
  exit_status (snd (main os (S PATH_MAX) (request false false false)
                      (start no_source)))
  = Exited 1.
Proof.
  destruct (exit_codes os PATH_MAX (S PATH_MAX) (request false false false)
              (start no_source) TreeFSFacts.bounded (le_n _)) as [H _].
  assert (Hex : path_exists os (world (start no_source))
                  (source (request false false false)) = false)
    by (vm_compute; reflexivity).
  exact (proj2 (H Hex)).
Defined.

(** On the machine whose user interrupts the making of a directory, the
    real run of a request whose source is a directory does not exit
    with code 1, and is not interrupted in the traversal, which it never
    reaches; and yet it does not exit with code 0: after its one
    request, for [/dst], the interrupt leaves [main] uncaught and the
    process dies of it. *)
Lemma interrupt_while_preparing_destination :
  path_exists impatient two_levels (lit "/src") = true
  /\ path_isdir impatient two_levels (lit "/src") = true
  /\ log (fst (main impatient 5 (request false false false)
                 (start two_levels)))
     = [Makedirs (lit "/dst")]
  /\ snd (main impatient 5 (request false false false) (start two_levels))
     = Raise KeyboardInterrupt
  /\ exit_status
       (snd (main impatient 5 (request false false false) (start two_levels)))
     = Killed_by_SIGINT
  /\ exit_status
       (snd (main impatient 5 (request false false false) (start two_levels)))
     <> Exited 0.
Proof.
  repeat split; try (vm_compute; reflexivity).
  vm_compute. discriminate.
Qed.


Lemma dry_run_directory_reports_witness :
  exists evs,
    log (fst (main os 5 (request false true false) (start two_levels)))
    = [] ++ evs
    /\ Forall no_ensure_line evs.
Proof.
  exact (proj2 (proj2 (dry_run_directory_reports os 5
                         (request false true false) (start two_levels)
                         eq_refl)) eq_refl).
Defined.

(** The dry run of [two_levels] without the verbose flag ends with exit
    code 0 and has printed the three copies: no line about the
    destination root or about [/dst/sub]. *)
Lemma dry_run_silent_about_directories :
  let r := run 5 (request false true false) two_levels in
  snd r = Exited 0
  /\ log (fst r)
     = [Print Stdout (lit "[DRY] COPY: /src/a.txt -> /dst/a.txt");
        Print Stdout (lit "[DRY] COPY: /src/sub/a.txt -> /dst/sub/a.txt");
        Print Stdout (lit "[DRY] COPY: /src/sub/b.txt -> /dst/sub/b.txt")]
  /\ ~ In (Print Stdout (lit "[DRY] Ensure directory exists: /dst"))
          (log (fst r))
  /\ ~ In (Print Stdout (lit "[DRY] Ensure directory exists: /dst/sub"))
          (log (fst r)).
Proof.
  assert (E : log (fst (run 5 (request false true false) two_levels))
     = [Print Stdout (lit "[DRY] COPY: /src/a.txt -> /dst/a.txt");
        Print Stdout (lit "[DRY] COPY: /src/sub/a.txt -> /dst/sub/a.txt");
        Print Stdout (lit "[DRY] COPY: /src/sub/b.txt -> /dst/sub/b.txt")])
    by (vm_compute; reflexivity).
  cbv zeta. rewrite E.
  split; [vm_compute; reflexivity|]. split; [reflexivity|].
  split; intros [H|[H|[H|[]]]]; discriminate H.
Qed.

(** C2, on the code.  With [/dst/a.txt] and the name the clock gives its
    namesake both there, [unique_name] returns that name: a path that
    exists.  The flatten run over three files of one name comes to that
    point: the second and the third file are copied to the same target,
    and the second copy is lost. *)
Theorem unique_name_returns_taken_path :
  path_exists os twice_taken (lit "/dst/a.txt") = true
  /\ unique_name os twice_taken (lit "/dst/a.txt")
     = lit "/dst/a_20260102-030405.txt"
  /\ path_exists os twice_taken (unique_name os twice_taken (lit "/dst/a.txt"))
     = true
  /\ (let r := run 5 (request true false false) three_namesakes in
      snd r = Exited 0
      /\ log (fst r)
         = [Makedirs (lit "/dst"); Makedirs (lit "/dst");
            Copy2 (lit "/src/a.txt") (lit "/dst/a.txt");
            Makedirs (lit "/dst");
            Copy2 (lit "/src/x/a.txt") (lit "/dst/a_20260102-030405.txt");
            Makedirs (lit "/dst");
            Copy2 (lit "/src/y/a.txt") (lit "/dst/a_20260102-030405.txt")]
      /\ lookup [lit "dst"] (root (world (fst r)))
         = Some (Dir [(lit "a.txt", File (lit "A"));
                      (lit "a_20260102-030405.txt", File (lit "C"))])).
Proof.
  repeat split; vm_compute; reflexivity.
Qed.

(** C8, on the code.  In flatten mode over [two_levels] the dry run
    reports [/src/sub/a.txt] as a copy to [/dst/a.txt]; the run itself
    renames it, because [/src/a.txt] has been copied there by then. *)
Theorem dry_run_misreports_flat_collision :
  log (fst (run 5 (request true true false) two_levels))
  = [Print Stdout (lit "[DRY] COPY: /src/a.txt -> /dst/a.txt");
     Print Stdout (lit "[DRY] COPY: /src/sub/a.txt -> /dst/a.txt");
     Print Stdout (lit "[DRY] COPY: /src/sub/b.txt -> /dst/b.txt")]
  /\ log (fst (run 5 (request true false true) two_levels))
     = [Makedirs (lit "/dst"); Print Stdout (lit "Destination ready: /dst");
        Makedirs (lit "/dst");
        Copy2 (lit "/src/a.txt") (lit "/dst/a.txt");
        Print Stdout (lit "[COPIED] /src/a.txt -> /dst/a.txt");
        Makedirs (lit "/dst");
        Copy2 (lit "/src/sub/a.txt") (lit "/dst/a_20260102-030405.txt");
        Print Stdout
          (lit "[RENAMED] /src/sub/a.txt -> /dst/a_20260102-030405.txt");
        Copy2 (lit "/src/sub/b.txt") (lit "/dst/b.txt");
        Print Stdout (lit "[COPIED] /src/sub/b.txt -> /dst/b.txt");
        Print Stdout (lit "Backup completed.")].
Proof.
  split; vm_compute; reflexivity.
Qed.

End Witnesses.

(** ** More of what the script does *)

Section More.

Context {W : Type} (os : OS W).

Lemma renamed_iff_taken (w : W) (dest_file : str) :
  negb (str_eqb (unique_name os w dest_file) dest_file)
  = path_exists os w dest_file.
Proof.
  destruct (path_exists os w dest_file) eqn:E.
  - apply negb_true_iff, str_eqb_neq. now apply unique_name_differs.
  - rewrite (unique_name_free os w dest_file E). now rewrite str_eqb_refl.
Qed.

(** X1. The word [copy_file] reports tells whether the destination was
    taken when it decided: a dry run prints RENAME where the destination
    file exists and COPY where it does not, and a verbose run prints
    RENAMED or COPIED by the same test after a copy that succeeded. *)
Theorem reported_action_tells_collision (src_file dest_file : str)
    (st : state W) :
  (forall verb,
     copy_file os src_file dest_file true verb st
     = (say st Stdout
          (lit "[DRY] "
           ++ (if path_exists os (world st) dest_file
               then lit "RENAME" else lit "COPY")
           ++ lit ": " ++ src_file ++ lit " -> "
           ++ unique_name os (world st) dest_file),
        Ret tt))
  /\ (forall w',
        copy2 os (world st) src_file (unique_name os (world st) dest_file)
        = (w', None) ->
        copy_file os src_file dest_file false true st
        = (say {| world := w';
                  log := log st
                         ++ [Copy2 src_file
                               (unique_name os (world st) dest_file)] |}
             Stdout
             (lit "["
              ++ (if path_exists os (world st) dest_file
                  then lit "RENAMED" else lit "COPIED")
              ++ lit "] " ++ src_file ++ lit " -> "
              ++ unique_name os (world st) dest_file),
           Ret tt)).
Proof.
  split.
  - intros verb. rewrite copy_file_dry. now rewrite renamed_iff_taken.
  - intros w' Hcp. rewrite copy_file_live. cbv zeta. rewrite Hcp.
    now rewrite renamed_iff_taken.
Qed.

(** X2. Whatever the mode and whatever the copy does, [copy_file] either
    returns or lets through an exception that is no [Exception] (the
    user's interrupt): it never leaves the process and no error of a
    copy escapes it. *)
Theorem copy_file_lets_only_interrupts_through (src_file dest_file : str)
    (dry verb : bool) (st : state W) :
  match snd (copy_file os src_file dest_file dry verb st) with
  | Ret _ => True
  | Raise e => is_Exception e = false
  | Exit _ | OutOfFuel => False
  end.
Proof.
  destruct dry; [now rewrite copy_file_dry|].
  rewrite copy_file_live. cbv zeta.
  destruct (copy2 os (world st) src_file _) as [w' [x|]].
  - now destruct (is_Exception x) eqn:Ex.
  - now destruct verb.
Qed.

(** X3. A source that exists and is no directory ends the run at once:
    one line on standard error, exit code 1, and no call that could
    change the machine: no directory is asked for and nothing is
    copied. *)
Theorem source_not_a_directory (fuel : nat) (a : args) (st : state W) :
  path_exists os (world st) (source a) = true ->
  path_isdir os (world st) (source a) = false ->
  main os fuel a st
  = (say st Stderr (lit "[ERROR] Source is not a directory: " ++ source a),
     Exit 1).
Proof.
  intros Hex Hdir. unfold main.
  now rewrite bind_eq, (validate_source_not_dir os a st Hex Hdir).
Qed.

(** X4. When the destination cannot be made, the run stops before any
    traversal: after the one call to [os.makedirs] it writes the error
    with the destination and the message, and exits with code 1; no file
    is copied. *)
Theorem destination_failure_stops_the_run (fuel : nat) (a : args)
    (st : state W) (w' : W) (e : exn) :
  path_exists os (world st) (source a) = true ->
  path_isdir os (world st) (source a) = true ->
  dry_run a = false ->
  makedirs os (world st) (destination a) = (w', Some e) ->
  is_Exception e = true ->
  main os fuel a st
  = (say {| world := w'; log := log st ++ [Makedirs (destination a)] |} Stderr
       (lit "[ERROR] Cannot create or access destination directory: "
        ++ destination a ++ lit " (" ++ str_of_exn e ++ lit ")"),
     Exit 1).
Proof.
  intros Hex Hdir Hdry Hmk He. unfold main.
  rewrite bind_eq, (validate_source_ok os a st Hex Hdir), bind_eq.
  unfold prepare_destination, try_except_Exception.
  rewrite Hdry. cbn [negb]. rewrite bind_eq. unfold call at 1.
  rewrite Hmk, He. reflexivity.
Qed.

(** X5. An interrupt during a copy ends the loop over the files on the
    spot: the files after it are not touched, in this directory or in
    any other, and [KeyboardInterrupt] is what the loop comes to. *)
Theorem interrupt_stops_the_loop (root target_dir fname : str)
    (rest : list str) (verb : bool) (st : state W) (w' : W) :
  let src_file := posixpath.join root [fname] in
  let target := unique_name os (world st) (posixpath.join target_dir [fname]) in
  copy2 os (world st) src_file target = (w', Some KeyboardInterrupt) ->
  for_each (fname :: rest)
    (fun fname =>
       copy_file os (posixpath.join root [fname])
         (posixpath.join target_dir [fname]) false verb) st
  = ({| world := w'; log := log st ++ [Copy2 src_file target] |},
     Raise KeyboardInterrupt).
Proof.
  intros src_file target Hcp. cbn [for_each]. rewrite bind_eq.
  rewrite copy_file_live. cbv zeta. fold src_file target.
  now rewrite Hcp.
Qed.

(** X6. On a machine with bounded paths the traversal, given fuel beyond
    the bound, always comes to an end, a return or an exception, also
    when the destination lies inside the source and the tree grows while
    it is walked. *)
Theorem backup_always_ends (N fuel : nat) (src_dir dest_dir : str)
    (fl dry verb : bool) (st : state W) :
  bounded_paths os N -> (N < fuel)%nat ->
  exists st',
    backup_recursive os fuel src_dir dest_dir fl dry verb st = (st', Ret tt)
    \/ exists e,
         backup_recursive os fuel src_dir dest_dir fl dry verb st
         = (st', Raise e).
Proof.
  intros HB Hfuel.
  pose proof (proper_backup_recursive os N fuel src_dir dest_dir fl dry verb
                HB Hfuel st) as H.
  destruct (backup_recursive os fuel src_dir dest_dir fl dry verb st)
    as [st' [[]|e|c|]]; cbn [snd] in H; try contradiction; exists st'; eauto.
Qed.

(** X7. A run that is neither a dry run nor verbose writes nothing on
    standard output but the notice of an interrupt: all it prints are
    errors. *)
Theorem quiet_run_prints_only_errors (fuel : nat) (a : args) (st : state W) :
  dry_run a = false -> verbose a = false ->
  exists evs, log (fst (main os fuel a st)) = log st ++ evs
              /\ Forall only_errors evs.
Proof.
  intros Hdry Hverb.
  set (R := grows only_errors (fun _ _ : W => True)).
  assert (Hr : forall st : state W, R st st) by (apply grows_refl; auto).
  assert (Ht : forall x y z : state W, R x y -> R y z -> R x z)
    by (apply grows_trans; auto).
  assert (He : forall line, steps R (@print W Stderr line))
    by (intros; apply grows_emit; [auto|exact I]).
  assert (Hmk : forall p f, steps R (@call W (Makedirs p) f))
    by (intros; apply grows_call; [auto|exact I]).
  assert (Hcp : forall s t f, steps R (@call W (Copy2 s t) f))
    by (intros; apply grows_call; [auto|exact I]).
  enough (S : steps R (main os fuel a)) by (apply S).
  unfold main, validate_source, prepare_destination.
  rewrite Hdry, Hverb. cbn [negb].
  prog; try apply He; try apply Hmk.
  apply steps_perform_backup; auto.
  - rewrite Hdry, Hverb.
    unfold backup_recursive. apply steps_walk; auto. intros root dirs files.
    cbn [negb]. prog; first [apply He|apply Hmk|apply Hcp].
  - rewrite Hverb. discriminate.
  - apply grows_emit; [auto|reflexivity].
Qed.

(** X8. In every run, whatever the flags, the text of every [print]
    call on standard error begins with [[ERROR] ], and the text of no
    [print] call on standard output begins so.  (This is said of the
    text a call prints, from its first character, not of each line of
    it: a text holds the paths it names, and a path may hold a line
    break.) *)
Theorem errors_go_to_stderr (fuel : nat) (a : args) (st : state W) :
  exists evs, log (fst (main os fuel a st)) = log st ++ evs
              /\ Forall streams_kept evs.
Proof.
  set (R := grows streams_kept (fun _ _ : W => True)).
  assert (Hr : forall st : state W, R st st) by (apply grows_refl; auto).
  assert (Ht : forall x y z : state W, R x y -> R y z -> R x z)
    by (apply grows_trans; auto).
  assert (Hmk : forall p f, steps R (@call W (Makedirs p) f))
    by (intros; apply grows_call; [auto|exact I]).
  assert (Hcp : forall s t f, steps R (@call W (Copy2 s t) f))
    by (intros; apply grows_call; [auto|exact I]).
  assert (He : forall line, startswith error_prefix line = true ->
                 steps R (@print W Stderr line))
    by (intros; apply grows_emit; [auto|assumption]).
  assert (Ho : forall line (n : nat),
             (n < List.length error_prefix)%nat ->
             nth_error line n <> nth_error error_prefix n ->
             steps R (@print W Stdout line)).
  { intros line n Hn Hne. apply grows_emit; [auto|].
    cbn [streams_kept]. now apply (startswith_nth _ _ n). }
  assert (Ho0 : forall line,
             nth_error line 0 <> nth_error error_prefix 0 ->
             steps R (@print W Stdout line))
    by (intros line; apply Ho; cbv; lia).
  assert (Ho1 : forall line,
             nth_error line 1 <> nth_error error_prefix 1 ->
             steps R (@print W Stdout line))
    by (intros line; apply Ho; cbv; lia).
  enough (S : steps R (main os fuel a)) by (apply S).
  unfold main, validate_source, prepare_destination.
  prog;
    try first [ apply Hmk | apply He; reflexivity | apply Ho0; discriminate ].
  apply steps_perform_backup; auto.
  - unfold backup_recursive. apply steps_walk; auto. intros root dirs files.
    prog;
      first [ apply Hmk | apply Hcp | apply He; reflexivity
            | apply Ho1; discriminate
            | destruct (negb _); apply Ho1; discriminate ].
  - intros _. apply Ho0; discriminate.
  - apply Ho0; discriminate.
Qed.

Lemma prepare_destination_ends (a : args) (st : state W) :
  snd (prepare_destination os a st) = Ret tt
  \/ snd (prepare_destination os a st) = Exit 1
  \/ snd (prepare_destination os a st) = Raise KeyboardInterrupt.
Proof.
  unfold prepare_destination, try_except_Exception, bind, call.
  destruct (dry_run a); cbn [negb].
  - left. unfold ret. now destruct (verbose a).
  - destruct (makedirs os (world st) (destination a)) as [w' [e|]]; cbn [snd].
    + destruct e; cbn [is_Exception]; auto.
    + left. now destruct (verbose a).
Qed.

(** X9. On a machine with bounded paths and with fuel beyond the bound,
    the process ends, and in one of four ways: with exit code 0, 1 or
    130, or killed by an interrupt that nothing in [main] catches. *)
Theorem exit_status_range (N fuel : nat) (a : args) (st : state W) :
  bounded_paths os N -> (N < fuel)%nat ->
  exit_status (snd (main os fuel a st)) = Exited 0
  \/ exit_status (snd (main os fuel a st)) = Exited 1
  \/ exit_status (snd (main os fuel a st)) = Exited 130
  \/ exit_status (snd (main os fuel a st)) = Killed_by_SIGINT.
Proof.
  intros HB Hfuel. unfold main. rewrite bind_eq.
  destruct (path_exists os (world st) (source a)) eqn:Hex;
    [|rewrite (validate_source_missing os a st Hex); auto].
  destruct (path_isdir os (world st) (source a)) eqn:Hdir;
    [|rewrite (validate_source_not_dir os a st Hex Hdir); auto].
  rewrite (validate_source_ok os a st Hex Hdir), bind_eq.
  destruct (prepare_destination_ends a st) as [E|[E|E]];
    destruct (prepare_destination os a st) as [st1 r]; cbn [snd] in E;
    subst r; cbn [snd exit_status]; auto.
  rewrite perform_backup_status.
  pose proof (proper_backup_recursive os N fuel (source a) (destination a)
                (flat a) (dry_run a) (verbose a) HB Hfuel st1) as Hend.
  destruct (snd (backup_recursive os fuel (source a) (destination a)
                   (flat a) (dry_run a) (verbose a) st1)) as [[]|e|c|];
    try contradiction; [auto|destruct e; auto].
Qed.

Lemma for_each_copies (root target_dir : str) (verb : bool)
    (files : list str) :
  forall st st',
    for_each files
      (fun fname =>
         copy_file os (posixpath.join root [fname])
           (posixpath.join target_dir [fname]) false verb) st
    = (st', Ret tt) ->
    exists evs,
      log st' = log st ++ evs
      /\ dir_requests evs = []
      /\ copy_sources evs = map (fun fname => posixpath.join root [fname]) files.
Proof.
  induction files as [|f files IH]; intros st st' H.
  - cbn [for_each] in H. injection H as <-. exists []. now rewrite app_nil_r.
  - cbn [for_each] in H. rewrite bind_eq, copy_file_live in H. cbv zeta in H.
    assert (Hstep : forall st1 new,
              log st1 = log st ++ new ->
              dir_requests new = [] ->
              copy_sources new = [posixpath.join root [f]] ->
              for_each files
                (fun fname =>
                   copy_file os (posixpath.join root [fname])
                     (posixpath.join target_dir [fname]) false verb) st1
              = (st', Ret tt) ->
              exists evs,
                log st' = log st ++ evs
                /\ dir_requests evs = []
                /\ copy_sources evs
                   = map (fun fname => posixpath.join root [fname]) (f :: files)).
    { intros st1 new L1 D1 C1 H1. destruct (IH _ _ H1) as (evs & L & D & C).
      exists (new ++ evs). split; [now rewrite L, L1, app_assoc|].
      unfold copy_sources, dir_requests in *.
      rewrite !flat_map_app, D1, D, C1, C. split; reflexivity. }
    destruct (copy2 os (world st) (posixpath.join root [f]) _) as [w' [e|]].
    + destruct (is_Exception e); [|discriminate].
      eapply Hstep; [| | |exact H];
        [cbn [say log]; rewrite <- app_assoc; reflexivity
        |reflexivity|reflexivity].
    + destruct verb.
      * eapply Hstep; [| | |exact H];
          [cbn [say log]; rewrite <- app_assoc; reflexivity
          |reflexivity|reflexivity].
      * eapply Hstep; [| | |exact H];
          [cbn [log]; reflexivity|reflexivity|reflexivity].
Qed.

(** X10. A level of a run that copies, when it returns, has asked for
    its directory first and only then, in one [makedirs] call and no
    other, and after it for one copy of each file the listing named, in
    the order of the listing, a file whose copy failed included: no file
    is skipped and none is copied twice. *)
Theorem level_copies_each_file_once (src_dir dest_dir : str)
    (fl verb : bool) (root rel : str) (dirs files : list str)
    (st st' : state W) :
  posixpath.relpath (getcwd os (world st)) root src_dir = Some rel ->
  backup_level os src_dir dest_dir fl false verb root dirs files st
  = (st', Ret tt) ->
  exists evs,
    log st' = log st ++ Makedirs (target_dir_of dest_dir fl rel) :: evs
    /\ dir_requests evs = []
    /\ copy_sources evs
       = map (fun fname => posixpath.join root [fname]) files.
Proof.
  intros Hrel H. unfold backup_level in H.
  rewrite bind_eq in H. unfold gets at 1 in H. cbv beta iota in H.
  rewrite Hrel in H. cbn [negb] in H. rewrite bind_eq in H.
  unfold call at 1 in H.
  destruct (makedirs os (world st) (target_dir_of dest_dir fl rel))
    as [w' [e|]]; [discriminate|].
  destruct (for_each_copies _ _ _ _ _ _ H) as (evs & L & D & C).
  cbn [log] in L.
  exists evs. split; [|split; [exact D|exact C]]. now rewrite L, <- app_assoc.
Qed.

Lemma for_each_dry (root target_dir : str) (verb : bool) (files : list str) :
  forall st,
    for_each files
      (fun fname =>
         copy_file os (posixpath.join root [fname])
           (posixpath.join target_dir [fname]) true verb) st
    = ({| world := world st;
          log := log st
            ++ map (fun fname =>
                 Print Stdout
                   (lit "[DRY] "
                    ++ (if path_exists os (world st)
                             (posixpath.join target_dir [fname])
                        then lit "RENAME" else lit "COPY")
                    ++ lit ": " ++ posixpath.join root [fname] ++ lit " -> "
                    ++ unique_name os (world st)
                         (posixpath.join target_dir [fname]))) files |},
       Ret tt).
Proof.
  induction files as [|f files IH]; intros st.
  - cbn [for_each map]. rewrite app_nil_r. now destruct st.
  - cbn [for_each]. rewrite bind_eq, copy_file_dry, IH.
    cbn [say world log map]. rewrite renamed_iff_taken, <- app_assoc.
    reflexivity.
Qed.

(** X11. A level of a dry run leaves the world as it is and prints,
    after the line about its directory when verbose, one line for each
    file of the listing, in order; each line is decided against that one
    unchanged world: RENAME with the timestamped name where the
    destination file exists in it, COPY with the plain name where it
    does not, whatever the lines before it announced. *)
Theorem dry_run_level_report (src_dir dest_dir : str) (fl verb : bool)
    (root rel : str) (dirs files : list str) (st : state W) :
  posixpath.relpath (getcwd os (world st)) root src_dir = Some rel ->
  let target_dir := target_dir_of dest_dir fl rel in
  backup_level os src_dir dest_dir fl true verb root dirs files st
  = ({| world := world st;
        log := log st
          ++ (if verb then [Print Stdout (ensure_prefix ++ target_dir)] else [])
          ++ map (fun fname =>
               Print Stdout
                 (lit "[DRY] "
                  ++ (if path_exists os (world st)
                           (posixpath.join target_dir [fname])
                      then lit "RENAME" else lit "COPY")
                  ++ lit ": " ++ posixpath.join root [fname] ++ lit " -> "
                  ++ unique_name os (world st)
                       (posixpath.join target_dir [fname]))) files |},
     Ret tt).
Proof.
  intros Hrel target_dir. unfold backup_level.
  rewrite bind_eq. unfold gets at 1. cbv beta iota.
  rewrite Hrel. cbn [negb]. fold target_dir. rewrite bind_eq.
  destruct verb.
  - unfold print at 1, emit at 1. rewrite for_each_dry.
    cbn [world log]. now rewrite <- app_assoc.
  - unfold ret at 1. now rewrite for_each_dry.
Qed.

End More.

(** ** The extension of a renamed file *)

Lemma digits_no_dot (s : str) :
  forallb is_digit s = true -> ~ In posixpath.extsep s.
Proof.
  intros H Hin. rewrite forallb_forall in H. specialize (H _ Hin).
  vm_compute in H. discriminate H.
Qed.

Lemma strftime_no_dot (dt : datetime) : ~ In posixpath.extsep (strftime dt).
Proof.
  unfold strftime. rewrite !in_app_iff.
  pose proof (digits_no_dot _ (pad4_digits (year dt))).
  pose proof (digits_no_dot _ (pad2_digits (month dt))).
  pose proof (digits_no_dot _ (pad2_digits (day dt))).
  pose proof (digits_no_dot _ (pad2_digits (hour dt))).
  pose proof (digits_no_dot _ (pad2_digits (minute dt))).
  pose proof (digits_no_dot _ (pad2_digits (second dt))).
  assert (~ In posixpath.extsep (lit "-")) by (simpl; intros [E|[]]; discriminate).
  tauto.
Qed.

(** The scan over a stretch of the name finds a character that is no
    dot exactly when there is one. *)
Lemma splitext_scan_app (a : str) :
  forall pre q,
    posixpath.splitext_scan (pre ++ a ++ q) (Z.of_nat (List.length pre))
      (List.length a)
    = negb (forallb is_dot a).
Proof.
  induction a as [|x a IH]; intros pre q; [reflexivity|].
  cbn [List.length posixpath.splitext_scan forallb].
  assert (E : firstn 1 (slice_from (pre ++ (x :: a) ++ q)
                          (Z.of_nat (List.length pre))) = [x]).
  { unfold slice_from. rewrite Nat2Z.id, skipn_length_app. reflexivity. }
  rewrite E. unfold is_dot at 1.
  destruct (Ascii.eqb x posixpath.extsep) eqn:Ex.
  - apply Ascii.eqb_eq in Ex. subst x. rewrite str_eqb_refl. cbn [negb andb].
    specialize (IH (pre ++ [posixpath.extsep]) q).
    rewrite <- app_assoc in IH. cbn [app] in IH.
    rewrite length_app in IH. cbn [List.length] in IH.
    replace (Z.of_nat (List.length pre) + 1)
      with (Z.of_nat (List.length pre + 1)) by lia.
    exact IH.
  - replace (str_eqb [x] [posixpath.extsep]) with false; [reflexivity|].
    symmetry. apply str_eqb_neq. intros H. injection H as ->.
    now rewrite Ascii.eqb_refl in Ex.
Qed.

(** [splitext] of a name with no slash, at its last dot. *)
Lemma splitext_at_last_dot (a b : str) :
  ~ In posixpath.sep (a ++ posixpath.extsep :: b) ->
  ~ In posixpath.extsep b ->
  posixpath.splitext (a ++ posixpath.extsep :: b)
  = if forallb is_dot a then (a ++ posixpath.extsep :: b, [])
    else (a, posixpath.extsep :: b).
Proof.
  intros Hsep Hdot. unfold posixpath.splitext.
  rewrite (rfind_notin _ _ Hsep), (rfind_last _ a b Hdot).
  replace (-1 <? Z.of_nat (List.length a)) with true
    by (symmetry; apply Z.ltb_lt; lia).
  replace (Z.to_nat (Z.of_nat (List.length a) - (-1 + 1)))
    with (List.length a) by lia.
  pose proof (splitext_scan_app a [] (posixpath.extsep :: b)) as S.
  cbn [app List.length] in S. change (Z.of_nat 0) with (-1 + 1) in S.
  rewrite S. cbn [andb].
  destruct (forallb is_dot a); cbn [negb]; [reflexivity|].
  unfold slice_to, slice_from. rewrite Nat2Z.id.
  now rewrite firstn_length_app, skipn_length_app.
Qed.

Lemma all_dots_repeat (a : str) :
  forallb is_dot a = true -> a = repeat posixpath.extsep (List.length a).
Proof.
  induction a as [|x a IH]; [reflexivity|].
  cbn [forallb List.length repeat]. intros H.
  apply andb_true_iff in H. destruct H as [Hx Ha].
  apply Ascii.eqb_eq in Hx. subst x. now rewrite <- (IH Ha).
Qed.

(** A dot-free, slash-free piece put between stem and extension stays
    with the stem, and the extension stays the extension. *)
Lemma splitext_infix (base t : str) :
  ~ In posixpath.sep base ->
  ~ In posixpath.sep t -> ~ In posixpath.extsep t ->
  posixpath.splitext
    (fst (posixpath.splitext base) ++ t ++ snd (posixpath.splitext base))
  = (fst (posixpath.splitext base) ++ t, snd (posixpath.splitext base)).
Proof.
  intros Hsep Hts Htd.
  destruct (rfind_cases posixpath.extsep base)
    as [[Hn _]|(a & b & -> & Hb & _)].
  - rewrite (splitext_no_dot base Hn). cbn [fst snd]. rewrite app_nil_r.
    apply splitext_no_dot. rewrite in_app_iff. tauto.
  - rewrite (splitext_at_last_dot a b Hsep Hb).
    destruct (forallb is_dot a) eqn:Ea; cbn [fst snd].
    + rewrite app_nil_r.
      rewrite (all_dots_repeat a Ea).
      replace ((repeat posixpath.extsep (List.length a)
                ++ posixpath.extsep :: b) ++ t)
        with (repeat posixpath.extsep (S (List.length a)) ++ (b ++ t)).
      * apply splitext_leading_dots.
        -- rewrite in_app_iff. tauto.
        -- rewrite in_app_iff. intros [H|H]; [|tauto].
           apply Hsep. rewrite in_app_iff. right. now right.
      * cbn [repeat]. rewrite repeat_cons, <- !app_assoc. reflexivity.
    + rewrite (app_assoc a t).
      rewrite (splitext_at_last_dot (a ++ t) b); [|
        rewrite <- app_assoc, !in_app_iff; rewrite in_app_iff in Hsep;
        cbn [In] in *; tauto | exact Hb].
      rewrite forallb_app, Ea. reflexivity.
Qed.

(** X12. Where the destination is taken, the name [unique_name] makes
    splits, by the same [splitext], into the stem with the underscore
    and the timestamp, and the extension of the original: the renamed
    file keeps its extension, and a file without one gets none. *)
Theorem renamed_file_keeps_extension {W} (os : OS W) (w : W) (path : str) :
  path_exists os w path = true ->
  posixpath.splitext (posixpath.basename (unique_name os w path))
  = (fst (posixpath.splitext (posixpath.basename path)) ++ lit "_"
     ++ strftime (utcnow os w),
     snd (posixpath.splitext (posixpath.basename path))).
Proof.
  intros Hex. rewrite (unique_name_taken os w path Hex).
  destruct (split_join (posixpath.dirname path)
              (fst (posixpath.splitext (posixpath.basename path)) ++ lit "_"
               ++ strftime (utcnow os w)
               ++ snd (posixpath.splitext (posixpath.basename path))))
    as [Hb _].
  - apply new_base_no_sep, strftime_no_sep.
  - apply dirname_shape.
  - etransitivity; [apply (f_equal posixpath.splitext); exact Hb|].
    pose proof (splitext_infix (posixpath.basename path)
                  (lit "_" ++ strftime (utcnow os w))) as H.
    rewrite <- !app_assoc in H. apply H.
    + apply basename_no_sep.
    + pose proof (strftime_no_sep (utcnow os w)).
      cbn [lit list_ascii_of_string app In]. intros [E|E]; [discriminate|tauto].
    + pose proof (strftime_no_dot (utcnow os w)).
      cbn [lit list_ascii_of_string app In]. intros [E|E]; [discriminate|tauto].
Qed.

Section MoreWitnesses.

Import TreeFS Scenario.

Lemma reported_action_tells_collision_witness :
  snd (copy_file os (lit "/src/a.txt") (lit "/dst/a.txt") false true
         (start two_levels))
  = Ret tt.
Proof.
  rewrite (proj2 (reported_action_tells_collision os (lit "/src/a.txt")
                    (lit "/dst/a.txt") (start two_levels))
             (fst (do_copy2 two_levels (lit "/src/a.txt") (lit "/dst/a.txt")))).
  - reflexivity.
  - vm_compute. reflexivity.
Defined.

Lemma source_not_a_directory_witness :
  run 5 (request false false false) source_is_file
  = (say (start source_is_file) Stderr
       (lit "[ERROR] Source is not a directory: /src"),
     Exited 1).
Proof.
  unfold run.
  rewrite (source_not_a_directory os 5 (request false false false)
             (start source_is_file));
    [reflexivity|vm_compute; reflexivity|vm_compute; reflexivity].
Defined.

Lemma destination_failure_stops_the_run_witness :
  run 5 (request false false false) destination_is_file
  = (say {| world := destination_is_file; log := [Makedirs (lit "/dst")] |}
       Stderr
       (lit "[ERROR] Cannot create or access destination directory: /dst ([Errno 17] File exists)"),
     Exited 1).
Proof.
  unfold run.
  rewrite (destination_failure_stops_the_run os 5 (request false false false)
             (start destination_is_file) destination_is_file
             (OSError (lit "[Errno 17] File exists")));
    try reflexivity; vm_compute; reflexivity.
Defined.

Lemma interrupt_stops_the_loop_witness :
  for_each [lit "a.txt"; lit "b.txt"]
    (fun fname =>
       copy_file os (posixpath.join (lit "/src") [fname])
         (posixpath.join (lit "/dst") [fname]) false false)
    (start interrupted)
  = ({| world := interrupted;
        log := [Copy2 (lit "/src/a.txt") (lit "/dst/a.txt")] |},
     Raise KeyboardInterrupt).
Proof.
  exact (interrupt_stops_the_loop os (lit "/src") (lit "/dst") (lit "a.txt")
           [lit "b.txt"] false (start interrupted) interrupted eq_refl).
Defined.

Lemma backup_always_ends_witness :
  exists st',
    backup_recursive os (S PATH_MAX) (lit "/src") (lit "/src/bk")
      false false false (start two_levels) = (st', Ret tt)
    \/ exists e,
         backup_recursive os (S PATH_MAX) (lit "/src") (lit "/src/bk")
           false false false (start two_levels) = (st', Raise e).
Proof.
  exact (backup_always_ends os PATH_MAX (S PATH_MAX) (lit "/src")
           (lit "/src/bk") false false false (start two_levels)
           TreeFSFacts.bounded (le_n _)).
Defined.

Lemma quiet_run_prints_only_errors_witness :
  exists evs,
    log (fst (main os 5 (request true false false) (start one_denied)))
    = [] ++ evs
    /\ Forall only_errors evs.
Proof.
  exact (quiet_run_prints_only_errors os 5 (request true false false)
           (start one_denied) eq_refl eq_refl).
Defined.

Lemma exit_status_range_witness :
  exit_status (snd (main os (S PATH_MAX) (request false false false)
                      (start interrupted))) = Exited 130.
Proof.
  destruct (exit_status_range os PATH_MAX (S PATH_MAX)
              (request false false false) (start interrupted)
              TreeFSFacts.bounded (le_n _)) as [H|[H|[H|H]]];
    try exact H; exfalso; revert H; vm_compute; discriminate.
Defined.

Lemma level_copies_each_file_once_witness :
  exists evs,
    log (fst (backup_level os (lit "/src") (lit "/dst") false false false
                (lit "/src/sub") [] [lit "a.txt"; lit "b.txt"]
                (start two_levels)))
    = [] ++ Makedirs (lit "/dst/sub") :: evs
    /\ dir_requests evs = []
    /\ copy_sources evs = [lit "/src/sub/a.txt"; lit "/src/sub/b.txt"].
Proof.
  apply (level_copies_each_file_once os (lit "/src") (lit "/dst") false false
           (lit "/src/sub") (lit "sub") [] [lit "a.txt"; lit "b.txt"]
           (start two_levels)).
  - vm_compute. reflexivity.
  - vm_compute. reflexivity.
Defined.

Lemma dry_run_level_report_witness :
  backup_level os (lit "/src") (lit "/dst") true true false
    (lit "/src/sub") [] [lit "a.txt"; lit "b.txt"] (start two_levels)
  = ({| world := two_levels;
        log := [Print Stdout (lit "[DRY] COPY: /src/sub/a.txt -> /dst/a.txt");
                Print Stdout (lit "[DRY] COPY: /src/sub/b.txt -> /dst/b.txt")] |},
     Ret tt).
Proof.
  exact (dry_run_level_report os (lit "/src") (lit "/dst") true false
           (lit "/src/sub") (lit "sub") [] [lit "a.txt"; lit "b.txt"]
           (start two_levels) eq_refl).
Defined.

Lemma renamed_file_keeps_extension_witness :
  posixpath.splitext
    (posixpath.basename (unique_name os twice_taken (lit "/dst/a.txt")))
  = (lit "a_20260102-030405", lit ".txt").
Proof.
  apply (renamed_file_keeps_extension os twice_taken (lit "/dst/a.txt")).
  vm_compute. reflexivity.
Defined.

End MoreWitnesses.

(** ** The relative path of a level below the source *)

Lemma split_not_nil (c : ascii) (p : str) : split c p <> [].
Proof.
  induction p as [|x p IH]; cbn [split]; [discriminate|].
  destruct (Ascii.eqb x c); [discriminate|].
  destruct (split c p); discriminate.
Qed.

Lemma split_app_sep (c : ascii) (a b : str) :
  split c (a ++ c :: b) = split c a ++ split c b.
Proof.
  induction a as [|x a IH]; cbn [app split].
  - now rewrite Ascii.eqb_refl.
  - destruct (Ascii.eqb x c); [now rewrite IH|].
    rewrite IH. pose proof (split_not_nil c a).
    destruct (split c a); [congruence|reflexivity].
Qed.

Lemma split_no_sep (c : ascii) (d : str) : ~ In c d -> split c d = [d].
Proof.
  induction d as [|x d IH]; intros H; cbn [split]; [reflexivity|].
  destruct (Ascii.eqb x c) eqn:E.
  - apply Ascii.eqb_eq in E. subst. exfalso. apply H. now left.
  - rewrite IH; [reflexivity|]. intros Hin. apply H. now right.
Qed.

Lemma split_elements (c : ascii) (p : str) :
  Forall (fun x => ~ In c x) (split c p).
Proof.
  induction p as [|x p IH]; cbn [split].
  - constructor; [intros []|constructor].
  - destruct (Ascii.eqb x c) eqn:E.
    + constructor; [intros []|exact IH].
    + destruct (split c p) as [|h t]; inversion IH; subst.
      * constructor; [|constructor]. intros [->|[]].
        now rewrite Ascii.eqb_refl in E.
      * constructor; [|assumption]. intros [->|Hin]; [|tauto].
        now rewrite Ascii.eqb_refl in E.
Qed.

Lemma split_join_with (c : ascii) (l : list str) :
  l <> [] -> Forall (fun x => ~ In c x) l -> split c (join_with c l) = l.
Proof.
  induction l as [|x l IH]; intros Hne H; [congruence|].
  inversion H as [|? ? Hx Hl]; subst.
  destruct l as [|y l].
  - cbn [join_with]. now apply split_no_sep.
  - change (join_with c (x :: y :: l)) with (x ++ c :: join_with c (y :: l)).
    rewrite split_app_sep, (split_no_sep c x Hx), IH; [reflexivity| |exact Hl].
    discriminate.
Qed.

Lemma endswith_char_app (c : ascii) (a p : str) :
  p <> [] -> endswith_char c (a ++ p) = endswith_char c p.
Proof.
  intros Hp. destruct (exists_last Hp) as (l & z & ->).
  now rewrite app_assoc, !endswith_char_snoc.
Qed.

Lemma normpath_comps_app (i : Z) (l l' : list str) :
  forall acc,
    posixpath.normpath_comps i (l ++ l') acc
    = posixpath.normpath_comps i l' (posixpath.normpath_comps i l acc).
Proof.
  induction l as [|x l IH]; intros acc; cbn [app posixpath.normpath_comps].
  - reflexivity.
  - destruct (null x || str_eqb x posixpath.curdir); [apply IH|].
    destruct (_ || _); apply IH.
Qed.

(** Only whether there is an initial slash matters to the loop. *)
Lemma normpath_comps_absolute (i : Z) (l : list str) :
  i <> 0 -> forall acc,
    posixpath.normpath_comps i l acc = posixpath.normpath_comps 1 l acc.
Proof.
  intros Hi. induction l as [|x l IH]; intros acc;
    cbn [posixpath.normpath_comps]; [reflexivity|].
  replace (i =? 0) with false by (symmetry; now apply Z.eqb_neq).
  change (1 =? 0) with false.
  destruct (null x || str_eqb x posixpath.curdir); [apply IH|].
  destruct (_ || _); apply IH.
Qed.

Lemma normpath_comps_entry (i : Z) (d : str) (acc : list str) :
  entry_name d -> posixpath.normpath_comps i [d] acc = acc ++ [d].
Proof.
  intros (Hne & _ & Hcur & Hpar). cbn [posixpath.normpath_comps].
  replace (null d) with false by (destruct d; [congruence|reflexivity]).
  apply str_eqb_neq in Hcur, Hpar. now rewrite Hcur, Hpar.
Qed.

Lemma removelast_Forall {A} (P : A -> Prop) (l : list A) :
  Forall P l -> Forall P (removelast l).
Proof.
  induction l as [|x l IH]; intros H; [constructor|].
  inversion H; subst. cbn [removelast].
  destruct l; [constructor|]. constructor; auto.
Qed.

Lemma normpath_comps_plain (i : Z) (l : list str) :
  Forall (fun x => ~ In posixpath.sep x) l ->
  forall acc, Forall plain acc ->
    Forall plain (posixpath.normpath_comps i l acc).
Proof.
  induction l as [|x l IH]; intros Hl acc Hacc;
    cbn [posixpath.normpath_comps]; [exact Hacc|].
  inversion Hl as [|? ? Hx Hl']; subst.
  destruct (null x) eqn:En; cbn [orb]; [now apply IH|].
  destruct (str_eqb x posixpath.curdir); [now apply IH|].
  destruct (_ || _).
  - apply IH; [exact Hl'|]. apply Forall_app. split; [exact Hacc|].
    constructor; [|constructor]. split; [|exact Hx].
    intros ->. discriminate.
  - apply IH; [exact Hl'|]. now apply removelast_Forall.
Qed.

Lemma nonempty_comps_join_with (l : list str) :
  Forall plain l -> posixpath.nonempty_comps (join_with posixpath.sep l) = l.
Proof.
  intros H. unfold posixpath.nonempty_comps.
  destruct l as [|x l]; [reflexivity|].
  rewrite split_join_with; [|discriminate|].
  - apply forallb_filter_id. apply forallb_forall. intros y Hy.
    rewrite Forall_forall in H. destruct (H y Hy) as [Hne _].
    destruct y; [congruence|reflexivity].
  - eapply Forall_impl; [|exact H]. now intros y [_ Hy].
Qed.

Lemma nonempty_comps_slashes (n : nat) (s : str) :
  posixpath.nonempty_comps (repeat posixpath.sep n ++ s)
  = posixpath.nonempty_comps s.
Proof.
  induction n as [|n IH]; [reflexivity|].
  unfold posixpath.nonempty_comps in *. cbn [repeat app split].
  rewrite Ascii.eqb_refl. cbn [filter null negb]. exact IH.
Qed.

(** The components of an absolute path, normalized. *)
Lemma nonempty_comps_normpath (p : str) :
  posixpath.isabs p = true ->
  posixpath.nonempty_comps (posixpath.normpath p)
  = posixpath.normpath_comps 1 (split posixpath.sep p) [].
Proof.
  intros Habs. unfold posixpath.normpath.
  assert (Hi : posixpath.initial_slashes p = 1
               \/ posixpath.initial_slashes p = 2).
  { unfold posixpath.initial_slashes. unfold posixpath.isabs in Habs.
    rewrite Habs. destruct (_ && _); auto. }
  replace (null p) with false
    by (destruct p; [discriminate Habs|reflexivity]).
  cbv zeta.
  rewrite (normpath_comps_absolute (posixpath.initial_slashes p))
    by (destruct Hi as [-> | ->]; discriminate).
  set (comps := posixpath.normpath_comps 1 (split posixpath.sep p) []).
  replace (null (repeat posixpath.sep
                   (Z.to_nat (posixpath.initial_slashes p))
                 ++ join_with posixpath.sep comps)) with false
    by (destruct Hi as [-> | ->]; reflexivity).
  rewrite nonempty_comps_slashes. apply nonempty_comps_join_with.
  apply normpath_comps_plain; [apply split_elements|constructor].
Qed.

(** [join] with a name of a listing appends to a path that is not empty. *)
Lemma join1_entry (p d : str) :
  p <> [] -> d <> [] -> ~ In posixpath.sep d ->
  posixpath.join1 p d
  = p ++ (if endswith_char posixpath.sep p then d else posixpath.sep :: d).
Proof.
  intros Hp Hd Hsep. unfold posixpath.join1.
  rewrite (startswith_sep_notin d Hsep).
  replace (null p) with false by (destruct p; [congruence|reflexivity]).
  cbn [orb]. now destruct (endswith_char posixpath.sep p).
Qed.

Lemma isabs_app (p x : str) :
  p <> [] -> posixpath.isabs (p ++ x) = posixpath.isabs p.
Proof. intros Hp. destruct p; [congruence|reflexivity]. Qed.

Lemma comps_join1 (q d : str) :
  posixpath.isabs q = true -> entry_name d ->
  posixpath.normpath_comps 1 (split posixpath.sep (posixpath.join1 q d)) []
  = posixpath.normpath_comps 1 (split posixpath.sep q) [] ++ [d].
Proof.
  intros Habs Hd. pose proof Hd as (Hne & Hsep & _).
  assert (Hq : q <> []) by (intros ->; discriminate).
  rewrite (join1_entry q d Hq Hne Hsep).
  destruct (endswith_char posixpath.sep q) eqn:Ee.
  - destruct (exists_last Hq) as (q0 & z & ->).
    rewrite endswith_char_snoc in Ee. apply Ascii.eqb_eq in Ee. subst z.
    rewrite <- app_assoc. cbn [app].
    rewrite !split_app_sep, !normpath_comps_app.
    rewrite (split_no_sep _ d Hsep). cbn [split].
    now rewrite (normpath_comps_entry 1 d _ Hd).
  - rewrite split_app_sep, normpath_comps_app, (split_no_sep _ d Hsep).
    now apply normpath_comps_entry.
Qed.

Lemma join_nonempty (q : str) (ds : list str) :
  q <> [] -> Forall entry_name ds -> posixpath.join q ds <> [].
Proof.
  revert q. induction ds as [|d ds IH]; intros q Hq H; [exact Hq|].
  inversion H as [|? ? Hd Hds]; subst. unfold posixpath.join in *.
  cbn [fold_left]. apply IH; [|exact Hds].
  destruct Hd as (Hne & Hsep & _). rewrite (join1_entry q d Hq Hne Hsep).
  destruct q; [congruence|discriminate].
Qed.

Lemma comps_join (ds : list str) :
  Forall entry_name ds ->
  forall q, posixpath.isabs q = true ->
    posixpath.normpath_comps 1 (split posixpath.sep (posixpath.join q ds)) []
    = posixpath.normpath_comps 1 (split posixpath.sep q) [] ++ ds.
Proof.
  induction 1 as [|d ds Hd Hds IH]; intros q Habs.
  - now rewrite app_nil_r.
  - unfold posixpath.join in *. cbn [fold_left].
    assert (Hq : q <> []) by (intros ->; discriminate).
    pose proof Hd as (Hne & Hsep & _).
    rewrite IH.
    + rewrite (comps_join1 q d Habs Hd), <- app_assoc. reflexivity.
    + rewrite (join1_entry q d Hq Hne Hsep). now rewrite isabs_app.
Qed.

Lemma anchored_join1 (cwd p d : str) :
  p <> [] -> entry_name d ->
  anchored cwd (posixpath.join1 p d) = posixpath.join1 (anchored cwd p) d.
Proof.
  intros Hp (Hne & Hsep & _). unfold anchored.
  rewrite (join1_entry p d Hp Hne Hsep), (isabs_app p _ Hp).
  destruct (posixpath.isabs p) eqn:Ea.
  - now rewrite (join1_entry p d Hp Hne Hsep).
  - unfold posixpath.join. cbn [fold_left].
    unfold posixpath.join1 at 1 3.
    assert (Hs : startswith [posixpath.sep] p = false) by exact Ea.
    assert (Hs' : forall x, startswith [posixpath.sep] (p ++ x) = false)
      by (intros x; rewrite <- Ea; apply (isabs_app p x Hp)).
    rewrite Hs, Hs'.
    set (x := if endswith_char posixpath.sep p then d else posixpath.sep :: d).
    assert (E : forall pre : str,
               posixpath.join1 (pre ++ p) d = (pre ++ p) ++ x).
    { intros pre. rewrite join1_entry; auto.
      - now rewrite (endswith_char_app _ pre p Hp).
      - destruct pre; [exact Hp|discriminate]. }
    destruct (null cwd || endswith_char posixpath.sep cwd).
    + rewrite E. now rewrite app_assoc.
    + change (cwd ++ posixpath.sep :: p) with (cwd ++ [posixpath.sep] ++ p).
      rewrite (app_assoc cwd), E, <- !app_assoc. reflexivity.
Qed.

Lemma anchored_join (cwd : str) (ds : list str) :
  Forall entry_name ds ->
  forall p, p <> [] ->
    anchored cwd (posixpath.join p ds) = posixpath.join (anchored cwd p) ds.
Proof.
  induction 1 as [|d ds Hd Hds IH]; intros p Hp; [reflexivity|].
  unfold posixpath.join in *. cbn [fold_left].
  rewrite IH.
  - now rewrite (anchored_join1 cwd p d Hp Hd).
  - destruct Hd as (Hne & Hsep & _). rewrite (join1_entry p d Hp Hne Hsep).
    destruct p; [congruence|discriminate].
Qed.

Lemma anchored_isabs (cwd p : str) :
  posixpath.isabs cwd = true -> p <> [] ->
  posixpath.isabs (anchored cwd p) = true.
Proof.
  intros Hc Hp. unfold anchored.
  destruct (posixpath.isabs p) eqn:Ea; [exact Ea|].
  unfold posixpath.join. cbn [fold_left]. unfold posixpath.join1.
  change (startswith [posixpath.sep] p) with (posixpath.isabs p).
  rewrite Ea.
  assert (Hcwd : cwd <> []) by (intros ->; discriminate).
  destruct (null cwd || endswith_char posixpath.sep cwd);
    now rewrite isabs_app.
Qed.

Lemma commonprefix_app (l m : list str) : posixpath.commonprefix l (l ++ m) = l.
Proof.
  induction l as [|x l IH]; [now destruct m|].
  cbn [app posixpath.commonprefix]. now rewrite str_eqb_refl, IH.
Qed.

(** The relative path of the directory reached from the source through
    the names [ds] is made of these names. *)
Lemma relpath_below (cwd src_dir : str) (d : str) (ds : list str) :
  posixpath.isabs cwd = true -> src_dir <> [] ->
  Forall entry_name (d :: ds) ->
  posixpath.relpath cwd (posixpath.join src_dir (d :: ds)) src_dir
  = Some (posixpath.join d ds).
Proof.
  intros Hcwd Hsrc Hds. unfold posixpath.relpath.
  pose proof (join_nonempty src_dir (d :: ds) Hsrc Hds) as Hj.
  replace (null (posixpath.join src_dir (d :: ds))) with false
    by (destruct (posixpath.join src_dir (d :: ds)); [congruence|reflexivity]).
  cbv zeta. unfold posixpath.abspath.
  fold (anchored cwd src_dir).
  fold (anchored cwd (posixpath.join src_dir (d :: ds))).
  rewrite (anchored_join cwd (d :: ds) Hds src_dir Hsrc).
  pose proof (anchored_isabs cwd src_dir Hcwd Hsrc) as Habs.
  rewrite (nonempty_comps_normpath _ Habs).
  rewrite nonempty_comps_normpath.
  - rewrite (comps_join (d :: ds) Hds _ Habs).
    rewrite commonprefix_app, Nat.sub_diag, skipn_length_app. reflexivity.
  - assert (Hne : anchored cwd src_dir <> []) by (intros E; rewrite E in Habs; discriminate).
    clear - Hds Habs Hne. revert Habs Hne.
    generalize (anchored cwd src_dir) as q. revert Hds.
    generalize (d :: ds) as l. induction 1 as [|e l He Hl IH]; intros q Habs Hq.
    + exact Habs.
    + unfold posixpath.join in *. cbn [fold_left].
      destruct He as (Hne & Hsep & _).
      apply IH; rewrite (join1_entry q e Hq Hne Hsep).
      * now rewrite isabs_app.
      * destruct q; [congruence|discriminate].
Qed.

Lemma entry_not_endswith_sep (e : str) :
  ~ In posixpath.sep e -> endswith_char posixpath.sep e = false.
Proof.
  intros H. unfold endswith_char. destruct (rev e) as [|x r] eqn:E; [reflexivity|].
  destruct (Ascii.eqb x posixpath.sep) eqn:Ex; [|reflexivity].
  apply Ascii.eqb_eq in Ex. subst x. exfalso. apply H.
  apply in_rev. rewrite E. now left.
Qed.

Lemma join_is_join_with (ds : list str) :
  Forall entry_name ds ->
  forall q, q <> [] -> endswith_char posixpath.sep q = false ->
    posixpath.join q ds = join_with posixpath.sep (q :: ds).
Proof.
  induction 1 as [|e ds He Hds IH]; intros q Hq Hend; [reflexivity|].
  unfold posixpath.join in *. cbn [fold_left].
  pose proof He as (Hne & Hsep & _).
  rewrite (join1_entry q e Hq Hne Hsep), Hend.
  rewrite IH.
  - change (join_with posixpath.sep (q :: e :: ds))
      with (q ++ posixpath.sep :: join_with posixpath.sep (e :: ds)).
    destruct ds as [|e' ds]; [reflexivity|].
    change (join_with posixpath.sep ((q ++ posixpath.sep :: e) :: e' :: ds))
      with ((q ++ posixpath.sep :: e)
            ++ posixpath.sep :: join_with posixpath.sep (e' :: ds)).
    change (join_with posixpath.sep (e :: e' :: ds))
      with (e ++ posixpath.sep :: join_with posixpath.sep (e' :: ds)).
    now rewrite <- app_assoc.
  - destruct q; [congruence|discriminate].
  - change (q ++ posixpath.sep :: e) with (q ++ [posixpath.sep] ++ e).
    rewrite app_assoc, (endswith_char_app _ _ e Hne).
    now apply entry_not_endswith_sep.
Qed.

Lemma join_with_not_dot (d : str) (ds : list str) :
  Forall entry_name (d :: ds) ->
  join_with posixpath.sep (d :: ds) <> lit ".".
Proof.
  intros H. inversion H as [|? ? (Hne & _ & Hcur & _) _]; subst.
  destruct ds as [|e ds]; [exact Hcur|].
  change (join_with posixpath.sep (d :: e :: ds))
    with (d ++ posixpath.sep :: join_with posixpath.sep (e :: ds)).
  destruct d as [|x d]; [congruence|].
  cbn [app]. intros E. injection E as _ E.
  destruct d; discriminate E.
Qed.

Section Mirror.

Context {W : Type} (os : OS W).

(** What a level of a run that copies asks for first. *)
Lemma backup_level_requests (src_dir dest_dir : str) (fl verb : bool)
    (root rel : str) (dirs files : list str) (st : state W) :
  posixpath.relpath (getcwd os (world st)) root src_dir = Some rel ->
  exists evs,
    log (fst (backup_level os src_dir dest_dir fl false verb root dirs files st))
    = log st ++ Makedirs (target_dir_of dest_dir fl rel) :: evs.
Proof.
  intros Hrel. unfold backup_level. rewrite bind_eq. unfold gets at 1.
  cbv beta iota. rewrite Hrel. cbn [negb]. rewrite bind_eq. unfold call at 1.
  destruct (makedirs os (world st) (target_dir_of dest_dir fl rel))
    as [w' [e|]]; cbn [fst log].
  - now exists [].
  - match goal with |- context [for_each files ?f ?s] =>
      assert (S : steps (grows (fun _ => True) (fun _ _ : W => True))
                    (for_each files f));
      [|destruct (S s) as [_ (evs & L & _)]; exists evs]
    end.
    + apply steps_for_each; [apply grows_refl; auto|apply grows_trans; auto|].
      intros x. unfold copy_file.
      apply steps_bind; [apply grows_trans; auto| |intros target].
      * apply steps_gets. apply grows_refl; auto.
      * apply steps_try; [apply grows_trans; auto| |intros e].
        -- apply steps_bind; [apply grows_trans; auto| |intros _].
           ++ apply grows_call; auto.
           ++ apply steps_if; [apply grows_emit; auto|].
              apply steps_ret. apply grows_refl; auto.
        -- apply grows_emit; auto.
    + rewrite L. cbn [log]. now rewrite <- app_assoc.
Qed.

(** X13. Nested mode mirrors the source: for the directory the walk
    reaches from the source through the names [d1 .. dk] of its
    listings, the relative path is [d1/../dk], and the level asks first
    for the directory of that relative path under the destination. *)
Theorem nested_level_mirrors_source (src_dir dest_dir : str) (verb : bool)
    (d : str) (ds dirs files : list str) (st : state W) :
  posixpath.isabs (getcwd os (world st)) = true ->
  src_dir <> [] ->
  Forall entry_name (d :: ds) ->
  let root := posixpath.join src_dir (d :: ds) in
  let rel := join_with posixpath.sep (d :: ds) in
  posixpath.relpath (getcwd os (world st)) root src_dir = Some rel
  /\ target_dir_of dest_dir false rel = posixpath.join dest_dir [rel]
  /\ exists evs,
       log (fst (backup_level os src_dir dest_dir false false verb
                   root dirs files st))
       = log st ++ Makedirs (posixpath.join dest_dir [rel]) :: evs.
Proof.
  intros Hcwd Hsrc Hds root rel.
  assert (Hrel : posixpath.relpath (getcwd os (world st)) root src_dir
                 = Some rel).
  { unfold root, rel. rewrite (relpath_below _ _ _ _ Hcwd Hsrc Hds).
    inversion Hds as [|? ? Hd Hrest]; subst.
    pose proof Hd as (Hne & Hsep & _).
    rewrite (join_is_join_with ds Hrest d Hne); [reflexivity|].
    now apply entry_not_endswith_sep. }
  assert (Ht : target_dir_of dest_dir false rel = posixpath.join dest_dir [rel]).
  { unfold target_dir_of.
    pose proof (join_with_not_dot d ds Hds) as Hdot.
    apply str_eqb_neq in Hdot. fold rel in Hdot. now rewrite Hdot. }
  split; [exact Hrel|]. split; [exact Ht|].
  rewrite <- Ht. now apply backup_level_requests.
Qed.

End Mirror.

Section MirrorWitness.

Import TreeFS Scenario.

Lemma nested_level_mirrors_source_witness :
  exists evs,
    log (fst (backup_level os (lit "/src") (lit "/dst") false false false
                (lit "/src/sub") [] [lit "a.txt"; lit "b.txt"]
                (start two_levels)))
    = [] ++ Makedirs (lit "/dst/sub") :: evs.
Proof.
  refine (proj2 (proj2 (nested_level_mirrors_source os (lit "/src") (lit "/dst")
                          false (lit "sub") [] [] [lit "a.txt"; lit "b.txt"]
                          (start two_levels) eq_refl _ _))).
  - discriminate.
  - constructor; [|constructor].
    repeat split; try discriminate. cbn. intros [H|[H|[H|[]]]]; discriminate H.
Defined.

End MirrorWitness.
